(** * The block prefetcher of libkbfs

    A shallow embedding of [blockPrefetcher]: the admission function
    [request], the priority rule, the three fan-out policies and the two
    public entry points as computations on a heap of wait groups and
    channels, and the engine (run loop, tracking goroutines, shutdown) as a
    labelled step function. *)

From stdpp Require Import base option list gmap strings sorting.
From Stdlib Require Import ZArith Lia.

Open Scope Z_scope.

(** ** Go's [int] on a 64-bit platform *)

Module GoInt.

Definition min_int : Z := - 2 ^ 63.
Definition max_int : Z := 2 ^ 63 - 1.

Definition in_range (z : Z) : Prop := min_int <= z <= max_int.

(** Two's-complement wrap-around of a mathematical integer. *)
Definition wrap (z : Z) : Z := (z + 2 ^ 63) mod 2 ^ 64 - 2 ^ 63.

(** [a - b] on [int]. *)
Definition sub (a b : Z) : Z := wrap (a - b).

End GoInt.

(** ** Data model *)

(** [BlockPointer]: the fields the prefetcher reads are the ID (logged, and
    the identity used by the cache) and the data version. *)
Record BlockPointer := mkBlockPointer {
  ID : string;
  DataVer : Z;
}.

Global Instance BlockPointer_eq_dec : EqDecision BlockPointer.
Proof. solve_decision. Defined.

Global Instance BlockPointer_countable : Countable BlockPointer.
Proof.
  refine (inj_countable' (fun p => (ID p, DataVer p))
            (fun t => mkBlockPointer t.1 t.2) _).
  by intros [].
Defined.

(** [EntryType]: the switch in [prefetchDirectDirBlock] names [Dir], [File]
    and [Exec]; every other value of the integer type takes its default
    branch. *)
Inductive EntryType :=
| File
| Exec
| Dir
| Sym
| OtherEntryType (code : Z).

Global Instance EntryType_eq_dec : EqDecision EntryType.
Proof. solve_decision. Defined.

Record DirEntry := mkDirEntry {
  entryPointer : BlockPointer;   (* DirEntry.BlockPointer *)
  Type_ : EntryType;             (* DirEntry.Type *)
  Size : N;                      (* DirEntry.Size, uint64 *)
  entryName : string;
}.

Global Instance DirEntry_eq_dec : EqDecision DirEntry.
Proof. solve_decision. Defined.

Record IndirectFilePtr := mkIndirectFilePtr {
  ifpPointer : BlockPointer;     (* IndirectFilePtr.BlockPointer *)
  Off : Z;
}.

Record IndirectDirPtr := mkIndirectDirPtr {
  idpPointer : BlockPointer;     (* IndirectDirPtr.BlockPointer *)
  OffName : string;
}.

Record FileBlock := mkFileBlock {
  fIsInd : bool;
  fIPtrs : list IndirectFilePtr;
  Contents : list Z;
}.

Record DirBlock := mkDirBlock {
  dIsInd : bool;
  dIPtrs : list IndirectDirPtr;
  Children : gmap string DirEntry;
}.

(** The dynamic type of a [Block] value, as the type switch of
    [PrefetchAfterBlockRetrieved] sees it. *)
Inductive Block :=
| BFileBlock (b : FileBlock)
| BDirBlock (b : DirBlock)
| BCommonBlock.

(** [&FileBlock{}] and [&DirBlock{}]. *)
Definition emptyFileBlock : FileBlock := mkFileBlock false [] [].
Definition emptyDirBlock : DirBlock := mkDirBlock false [] ∅.

(** Modelled from the spec: [FileBlock.NewEmpty] and [DirBlock.NewEmpty] are
    declared outside this file; the spec has the parent hand out "an empty
    file block of matching variant", and "symmetric" for directories. *)
Definition FileBlock_NewEmpty (b : FileBlock) : Block := BFileBlock emptyFileBlock.
Definition DirBlock_NewEmpty (b : DirBlock) : Block := BDirBlock emptyDirBlock.

Definition tlfID := string.

Record KeyMetadata := mkKeyMetadata {
  TlfID : tlfID;
}.

(** ** Constants *)

Definition fileIndirectBlockPrefetchPriority : Z := -100.
Definition dirEntryPrefetchPriority : Z := -200.
Definition updatePointerPrefetchPriority : Z := 0.
Definition defaultPrefetchPriority : Z := -1024.

(** ** Errors *)

(** What a data-version check reports; the values are opaque here. *)
Inductive DataVersionError := mkDataVersionError (ver : Z).

Inductive error :=
| ErrDataVersion (e : DataVersionError)
  (* whatever [checkDataVersion] returned *)
| ErrShutdownEOF (id : string)
  (* errors.Wrapf(io.EOF, "Skipping prefetch for block %v since the
     prefetcher is shutdown", ptr.ID) *).

Global Instance DataVersionError_eq_dec : EqDecision DataVersionError.
Proof. solve_decision. Defined.
Global Instance error_eq_dec : EqDecision error.
Proof. solve_decision. Defined.

(** ** Configuration *)

(** [prefetcherConfig]: the capabilities the prefetcher calls.
    [BlockCache().Get(ptr)] succeeds exactly on the pointers of the map. *)
Record prefetcherConfig := mkConfig {
  IsSyncedTlf : tlfID -> bool;
  BlockCache : gmap BlockPointer Block;
  (** Modelled from the spec: [checkDataVersion] is declared outside this
      file; the spec lists it as [Config.checkDataVersion(ptr) -> error?],
      a check that "rejects pointers with unsupported versions". *)
  checkDataVersion : BlockPointer -> option DataVersionError;
}.

(** Modelled from the spec: [defaultOnDemandRequestPriority] is a constant
    of the retrieval queue, declared outside this file; the spec only names
    it, so it is a parameter of the development. Being a typed Go constant,
    it and the constant expression [defaultOnDemandRequestPriority - 1] are
    representable in [int]. *)
Class OnDemandPriority := {
  defaultOnDemandRequestPriority : Z;
  onDemand_in_range : GoInt.in_range defaultOnDemandRequestPriority;
  onDemand_pred_in_range : GoInt.in_range (defaultOnDemandRequestPriority - 1);
}.

(** ** Requests and wait groups *)

(** The address of a [sync.WaitGroup]. *)
Definition wgref := nat.

Record prefetchRequest := mkPrefetchRequest {
  priority : Z;
  kmd : KeyMetadata;
  ptr : BlockPointer;
  block : Block;
  wg : wgref;
}.

(** The address of a channel made by [PrefetchAfterBlockRetrieved]. *)
Definition chanref := nat.

(** [blockPrefetcher], as its callers hold it: both interface fields may be
    nil. The states of its three channels belong to the engine (below). *)
Record blockPrefetcher := mkBlockPrefetcher {
  config : option prefetcherConfig;
  has_retriever : bool;            (* retriever != nil *)
  progressCh : chanref;
  shutdownCh : chanref;
  doneCh : chanref;
}.

(** ** The heap the policy layer works on *)

(** Wait groups and channels are shared between goroutines, so they live in
    a heap and are passed by address. The cache is read through the
    configuration; one call of the policy layer sees one content of it. *)

Record world := mkWorld {
  wgs : list Z;                        (* sync.WaitGroup counters, by address *)
  chans : list bool;                   (* done channels, by address; true = closed *)
  sent : list prefetchRequest;         (* values handed over on p.progressCh, oldest first *)
  waiters : list (wgref * chanref);    (* started goroutines [wg.Wait(); close(doneCh)] *)
}.

Definition set_wgs (f : list Z -> list Z) (w : world) : world :=
  mkWorld (f (wgs w)) (chans w) (sent w) (waiters w).
Definition set_chans (f : list bool -> list bool) (w : world) : world :=
  mkWorld (wgs w) (f (chans w)) (sent w) (waiters w).
Definition set_sent (f : list prefetchRequest -> list prefetchRequest)
    (w : world) : world :=
  mkWorld (wgs w) (chans w) (f (sent w)) (waiters w).
Definition set_waiters (f : list (wgref * chanref) -> list (wgref * chanref))
    (w : world) : world :=
  mkWorld (wgs w) (chans w) (sent w) (f (waiters w)).

(** Computations on the heap; [None] is a Go panic. *)
Definition M (A : Type) : Type := world -> option (A * world).

Definition ret {A} (a : A) : M A := fun w => Some (a, w).
Definition bind {A B} (m : M A) (k : A -> M B) : M B :=
  fun w => match m w with
           | Some (a, w') => k a w'
           | None => None
           end.
Definition lift {A} (o : option A) : M A :=
  fun w => match o with Some a => Some (a, w) | None => None end.

Declare Scope go_scope.
Delimit Scope go_scope with go.
Notation "x <- m ;; k" := (bind m (fun x => k))
  (at level 100, m at next level, right associativity) : go_scope.
Notation "m ;;; k" := (bind m (fun _ => k))
  (at level 100, right associativity) : go_scope.
Open Scope go_scope.

(** [&sync.WaitGroup{}] *)
Definition wg_new : M wgref :=
  fun w => Some (length (wgs w), set_wgs (fun l => l ++ [0]) w).

(** [wg.Add(delta)]: panics when the counter would go negative. *)
Definition wg_Add (l : wgref) (delta : Z) : M unit :=
  fun w => match wgs w !! l with
           | Some c => if decide (0 <= c + delta)
                       then Some (tt, set_wgs (fun cs => <[l := c + delta]> cs) w)
                       else None
           | None => None
           end.

(** [wg.Done()] *)
Definition wg_Done (l : wgref) : M unit := wg_Add l (-1).

(** [make(chan struct{})] *)
Definition make_chan : M chanref :=
  fun w => Some (length (chans w), set_chans (fun l => l ++ [false]) w).

(** [close(ch)]: panics on a closed channel. *)
Definition close_chan (ch : chanref) : M unit :=
  fun w => match chans w !! ch with
           | Some false => Some (tt, set_chans (fun cs => <[ch := true]> cs) w)
           | _ => None
           end.

(** [go func() { wg.Wait(); close(doneCh) }()] *)
Definition go_wait_close (l : wgref) (ch : chanref) : M unit :=
  fun w => Some (tt, set_waiters (fun gs => gs ++ [(l, ch)]) w).

(** One such goroutine runs to its end once the counter is zero. *)
Definition waiter_run (g : wgref * chanref) (w : world) : option world :=
  match wgs w !! g.1 with
  | Some 0 => snd <$> close_chan g.2 w
  | _ => None       (* [wg.Wait()] blocks *)
  end.

(** ** Admission *)

(** Which case the [select] of [request] takes. That depends on the other
    goroutines, so it is given from outside: [select_ready] says in which
    states of the engine a case can be taken, and a call that reaches the
    select is taken to leave it by one of the two. *)
Inductive select_outcome :=
| SelSend        (* case p.progressCh <- prefetchRequest{...} *)
| SelShutdown    (* case <-p.shutdownCh *).

Definition request (p : blockPrefetcher) (priority : Z) (kmd : KeyMetadata)
    (ptr : BlockPointer) (block : Block) (entryName : string) (wg : wgref)
    (sel : select_outcome) : M (option error) :=
  cfg <- lift (config p) ;;
  match BlockCache cfg !! ptr with
  | Some _ => ret None
  | None =>
    match checkDataVersion cfg ptr with
    | Some e => ret (Some (ErrDataVersion e))
    | None =>
      match sel with
      | SelSend =>
        fun w => Some (None, set_sent
                   (fun q => q ++ [mkPrefetchRequest priority kmd ptr block wg]) w)
      | SelShutdown => ret (Some (ErrShutdownEOF (ID ptr)))
      end
    end
  end.

(** ** Listing and sorting directory entries *)

(** The entries of a directory map, each carrying its key as [entryName]. *)
Definition named_entries (m : gmap string DirEntry) : list DirEntry :=
  (fun kv => mkDirEntry (entryPointer kv.2) (Type_ kv.2) (Size kv.2) kv.1)
    <$> map_to_list m.

(** Modelled from the spec: [dirEntryMapToDirEntries] is declared outside
    this file; the spec has it "build a list of children from the directory
    map". Go ranges over a map in an order it does not specify, so any
    listing of the named entries is allowed. *)
Class DirEntryLister := {
  dirEntryMapToDirEntries : gmap string DirEntry -> list DirEntry;
  dirEntryMapToDirEntries_perm :
    forall m, dirEntryMapToDirEntries m ≡ₚ named_entries m;
}.

Definition size_le (a b : DirEntry) : Prop := (Size a <= Size b)%N.

Global Instance size_le_dec a b : Decision (size_le a b).
Proof. unfold size_le. apply _. Defined.

(** Modelled from the spec: [dirEntriesBySizeAsc] is declared outside this
    file; the spec has the list "sorted by size ascending". [sort.Sort]
    rearranges the slice so that no entry is larger than a later one, and
    promises no order among entries of equal size. *)
Class dirEntriesBySizeAsc := {
  sort_Sort : list DirEntry -> list DirEntry;
  sort_Sort_perm : forall l, sort_Sort l ≡ₚ l;
  sort_Sort_sorted : forall l, Sorted size_le (sort_Sort l);
}.

Section Policy.
Context `{odp : OnDemandPriority} `{lister : DirEntryLister}
  `{sorter : dirEntriesBySizeAsc}.

(** ** Priorities *)

Definition calculatePriority (p : blockPrefetcher) (basePriority : Z)
    (tlf : tlfID) : M Z :=
  cfg <- lift (config p) ;;
  if IsSyncedTlf cfg tlf
  then ret (defaultOnDemandRequestPriority - 1)
  else ret basePriority.

(** [for i, x := range l { body }] *)
Fixpoint forRangeFrom {A} (i : nat) (l : list A) (body : nat -> A -> M unit)
    : M unit :=
  match l with
  | [] => ret tt
  | x :: l' => body i x ;;; forRangeFrom (S i) l' body
  end.
Definition forRange {A} (l : list A) (body : nat -> A -> M unit) : M unit :=
  forRangeFrom 0 l body.

(** ** Fan-out policies *)

(** [sels i] is the case taken by the [select] of the call made in
    iteration [i], when that call reaches it. *)
Definition prefetchIndirectFileBlock (p : blockPrefetcher) (b : FileBlock)
    (kmd : KeyMetadata) (sels : nat -> select_outcome) : M wgref :=
  wg <- wg_new ;;
  wg_Add wg (Z.of_nat (length (fIPtrs b))) ;;;
  startingPriority <-
    calculatePriority p fileIndirectBlockPrefetchPriority (TlfID kmd) ;;
  forRange (fIPtrs b) (fun i ptr =>
    request p (GoInt.sub startingPriority (Z.of_nat i)) kmd (ifpPointer ptr)
      (FileBlock_NewEmpty b) EmptyString wg (sels i) ;;; ret tt) ;;;
  ret wg.

Definition prefetchIndirectDirBlock (p : blockPrefetcher) (b : DirBlock)
    (kmd : KeyMetadata) (sels : nat -> select_outcome) : M wgref :=
  wg <- wg_new ;;
  wg_Add wg (Z.of_nat (length (dIPtrs b))) ;;;
  startingPriority <-
    calculatePriority p fileIndirectBlockPrefetchPriority (TlfID kmd) ;;
  forRange (dIPtrs b) (fun i ptr =>
    request p (GoInt.sub startingPriority (Z.of_nat i)) kmd (idpPointer ptr)
      (DirBlock_NewEmpty b) EmptyString wg (sels i) ;;; ret tt) ;;;
  ret wg.


(** The empty block [prefetchDirectDirBlock] hands out for an entry, or
    [None] for the default case of its switch. *)
Definition entryBlock (t : EntryType) : option Block :=
  match t with
  | Dir => Some (BDirBlock emptyDirBlock)
  | File => Some (BFileBlock emptyFileBlock)
  | Exec => Some (BFileBlock emptyFileBlock)
  | _ => None
  end.

Definition prefetchDirectDirBlock (p : blockPrefetcher) (ptr : BlockPointer)
    (b : DirBlock) (kmd : KeyMetadata) (sels : nat -> select_outcome)
    : M wgref :=
  let dirEntries := sort_Sort (dirEntryMapToDirEntries (Children b)) in
  wg <- wg_new ;;
  wg_Add wg (Z.of_nat (length dirEntries)) ;;;
  startingPriority <-
    calculatePriority p dirEntryPrefetchPriority (TlfID kmd) ;;
  forRange dirEntries (fun i entry =>
    let priority := GoInt.sub startingPriority (Z.of_nat i) in
    match entryBlock (Type_ entry) with
    | Some block =>
      request p priority kmd (entryPointer entry) block (entryName entry) wg
        (sels i) ;;; ret tt
    | None => wg_Done wg      (* and [continue] *)
    end) ;;;
  ret wg.

(** ** Entry points *)

Definition PrefetchBlock (p : blockPrefetcher) (block : Block)
    (ptr : BlockPointer) (kmd : KeyMetadata) (priority : Z)
    (sel : select_outcome) : M (option error) :=
  wg <- wg_new ;;
  wg_Add wg 1 ;;;
  request p priority kmd ptr block EmptyString wg sel.

Definition PrefetchAfterBlockRetrieved (p : blockPrefetcher) (b : Block)
    (ptr : BlockPointer) (kmd : KeyMetadata) (sels : nat -> select_outcome)
    : M chanref :=
  doneCh <- make_chan ;;
  wg <- match b with
        | BFileBlock b =>
          if fIsInd b
          then wg <- prefetchIndirectFileBlock p b kmd sels ;; ret (Some wg)
          else close_chan doneCh ;;; ret None
        | BDirBlock b =>
          if dIsInd b
          then wg <- prefetchIndirectDirBlock p b kmd sels ;; ret (Some wg)
          else wg <- prefetchDirectDirBlock p ptr b kmd sels ;; ret (Some wg)
        | BCommonBlock => close_chan doneCh ;;; ret None
        end ;;
  match wg with
  | Some wg => go_wait_close wg doneCh
  | None => ret tt
  end ;;;
  ret doneCh.

End Policy.

(** ** The engine *)

(** The completion channel a call of [retriever.Request] returned. The
    retriever delivers one value on it (nil or an error); the retrieval is
    in flight until then. The timeout of the request's context is the
    retriever's business: it shows as an error delivered here. *)
Inductive errCh_state :=
| ErrPending
| ErrDelivered (err : option string)
| ErrReceived.

(** Where a tracking goroutine (lines 174-190) stands. *)
Inductive task_pc :=
| TkSelect        (* select { case err := <-errCh: ; case <-p.shutdownCh: } *)
| TkCancelWait    (* cancel() done, blocked in <-errCh *)
| TkParentDone    (* about to call req.wg.Done() *)
| TkDeferred      (* about to run the deferred cancel() and wg.Done() *)
| TkExited.

Record tracked := mkTracked {
  t_req : prefetchRequest;     (* the request passed to retriever.Request *)
  t_errCh : errCh_state;
  t_cancelled : bool;          (* cancel() of the request's context was called *)
  t_pc : task_pc;
}.

(** Where the goroutine of [run] stands. *)
Inductive run_pc :=
| RunNotStarted                       (* [go p.run()] was not executed *)
| RunSelect                           (* select { case req := <-p.progressCh: ; case <-p.shutdownCh: } *)
| RunDispatch (req : prefetchRequest) (* req received; lines 169-174 to do *)
| RunWait                             (* returned from the loop; deferred wg.Wait() *)
| RunClose                            (* wg.Wait() returned; close(p.doneCh) to do *)
| RunExited.

Record engine := mkEngine {
  shutdown_closed : bool;      (* p.shutdownCh is closed *)
  done_closed : bool;          (* p.doneCh is closed *)
  run : run_pc;
  pending : Z;                 (* the counter of [var wg sync.WaitGroup] in run *)
  tasks : list tracked;        (* one per call of retriever.Request, oldest first *)
  closers : nat;               (* Shutdown calls past their select, before their close *)
  released : list wgref;       (* the req.wg.Done() calls made so far *)
  panicked : bool;
}.

Definition set_shutdown_closed (b : bool) (e : engine) : engine :=
  mkEngine b (done_closed e) (run e) (pending e) (tasks e) (closers e)
    (released e) (panicked e).
Definition set_done_closed (b : bool) (e : engine) : engine :=
  mkEngine (shutdown_closed e) b (run e) (pending e) (tasks e) (closers e)
    (released e) (panicked e).
Definition set_run (r : run_pc) (e : engine) : engine :=
  mkEngine (shutdown_closed e) (done_closed e) r (pending e) (tasks e)
    (closers e) (released e) (panicked e).
Definition set_pending (c : Z) (e : engine) : engine :=
  mkEngine (shutdown_closed e) (done_closed e) (run e) c (tasks e)
    (closers e) (released e) (panicked e).
Definition set_tasks (ts : list tracked) (e : engine) : engine :=
  mkEngine (shutdown_closed e) (done_closed e) (run e) (pending e) ts
    (closers e) (released e) (panicked e).
Definition set_closers (n : nat) (e : engine) : engine :=
  mkEngine (shutdown_closed e) (done_closed e) (run e) (pending e) (tasks e)
    n (released e) (panicked e).
Definition set_released (l : list wgref) (e : engine) : engine :=
  mkEngine (shutdown_closed e) (done_closed e) (run e) (pending e) (tasks e)
    (closers e) l (panicked e).
Definition set_panicked (e : engine) : engine :=
  mkEngine (shutdown_closed e) (done_closed e) (run e) (pending e) (tasks e)
    (closers e) (released e) true.

Definition set_pc (pc : task_pc) (t : tracked) : tracked :=
  mkTracked (t_req t) (t_errCh t) (t_cancelled t) pc.
Definition set_errCh (c : errCh_state) (t : tracked) : tracked :=
  mkTracked (t_req t) c (t_cancelled t) (t_pc t).
Definition set_cancelled (t : tracked) : tracked :=
  mkTracked (t_req t) (t_errCh t) true (t_pc t).

(** [close(p.shutdownCh)]: closing a closed channel panics. *)
Definition close_shutdownCh (e : engine) : engine :=
  if shutdown_closed e then set_panicked e else set_shutdown_closed true e.

(** [close(p.doneCh)] *)
Definition close_doneCh (e : engine) : engine :=
  if done_closed e then set_panicked e else set_done_closed true e.

(** [Shutdown], run from its select to its return without another
    goroutine in between; the result is [p.doneCh]. *)
Definition Shutdown (p : blockPrefetcher) (e : engine) : chanref * engine :=
  (doneCh p,
   if shutdown_closed e
   then e                      (* case <-p.shutdownCh: *)
   else close_shutdownCh e     (* default: close(p.shutdownCh) *)).

(** [newBlockPrefetcher]: the three channels are made open; with a nil
    retriever the constructor shuts the engine down and closes [doneCh]
    itself, otherwise it starts [run]. *)
Definition newBlockPrefetcher (retriever : bool)
    (config : option prefetcherConfig) : blockPrefetcher * engine :=
  let p := mkBlockPrefetcher config retriever 0%nat 1%nat 2%nat in
  let e := mkEngine false false RunNotStarted 0 [] 0 [] false in
  if retriever
  then (p, set_run RunSelect e)
  else (p, close_doneCh (Shutdown p e).2).

(** Which cases of the [select] in [request] can proceed: the send needs the
    run loop waiting in its own select (the channel is unbuffered), the
    receive needs [shutdownCh] closed. *)
Definition select_ready (e : engine) (sel : select_outcome) : bool :=
  match sel with
  | SelSend => match run e with RunSelect => true | _ => false end
  | SelShutdown => shutdown_closed e
  end.

(** The steps of the goroutines that share the engine. [req.wg] is a wait
    group of the caller: the engine only records the call of [Done] on it. *)
Inductive label :=
| LRecv (req : prefetchRequest)  (* run: case req := <-p.progressCh, from a [request] taking [SelSend] *)
| LRunShutdown                   (* run: case <-p.shutdownCh: return *)
| LDispatch                      (* run: retriever.Request, wg.Add(1), go func *)
| LWaitReturns                   (* run: the deferred wg.Wait() returns *)
| LCloseDone                     (* run: close(p.doneCh) *)
| LDeliver (i : nat) (err : option string)  (* retriever: sends on errCh of task i *)
| LTaskErr (i : nat)             (* task i: case err := <-errCh *)
| LTaskShutdown (i : nat)        (* task i: case <-p.shutdownCh: cancel() *)
| LTaskDrain (i : nat)           (* task i: <-errCh after the cancel *)
| LTaskParentDone (i : nat)      (* task i: req.wg.Done() *)
| LTaskExit (i : nat)            (* task i: deferred cancel(); wg.Done() *)
| LShutdownSelect                (* a Shutdown call: its select *)
| LShutdownClose                 (* a Shutdown call: close(p.shutdownCh) *).

Definition step_task (i : nat) (e : engine)
    (f : tracked -> option (tracked * (engine -> engine))) : option engine :=
  t ← tasks e !! i;
  '(t', g) ← f t;
  Some (g (set_tasks (<[i := t']> (tasks e)) e)).

(** One step; [None] when the step cannot be taken in [e]. A process that
    has panicked takes no step. *)
Definition step (l : label) (e : engine) : option engine :=
  if panicked e then None else
  match l with
  | LRecv req =>
    match run e with RunSelect => Some (set_run (RunDispatch req) e) | _ => None end
  | LRunShutdown =>
    match run e with
    | RunSelect => if shutdown_closed e then Some (set_run RunWait e) else None
    | _ => None
    end
  | LDispatch =>
    match run e with
    | RunDispatch req =>
      Some (set_run RunSelect
             (set_pending (pending e + 1)
               (set_tasks (tasks e ++ [mkTracked req ErrPending false TkSelect]) e)))
    | _ => None
    end
  | LWaitReturns =>
    match run e with
    | RunWait => if decide (pending e = 0) then Some (set_run RunClose e) else None
    | _ => None
    end
  | LCloseDone =>
    match run e with
    | RunClose => Some (set_run RunExited (close_doneCh e))
    | _ => None
    end
  | LDeliver i err =>
    step_task i e (fun t =>
      match t_errCh t with
      | ErrPending => Some (set_errCh (ErrDelivered err) t, id)
      | _ => None
      end)
  | LTaskErr i =>
    step_task i e (fun t =>
      match t_pc t, t_errCh t with
      | TkSelect, ErrDelivered _ => Some (set_pc TkParentDone (set_errCh ErrReceived t), id)
      | _, _ => None
      end)
  | LTaskShutdown i =>
    if shutdown_closed e then
      step_task i e (fun t =>
        match t_pc t with
        | TkSelect => Some (set_pc TkCancelWait (set_cancelled t), id)
        | _ => None
        end)
    else None
  | LTaskDrain i =>
    step_task i e (fun t =>
      match t_pc t, t_errCh t with
      | TkCancelWait, ErrDelivered _ => Some (set_pc TkParentDone (set_errCh ErrReceived t), id)
      | _, _ => None
      end)
  | LTaskParentDone i =>
    step_task i e (fun t =>
      match t_pc t with
      | TkParentDone =>
        Some (set_pc TkDeferred t, fun e' => set_released (released e' ++ [wg (t_req t)]) e')
      | _ => None
      end)
  | LTaskExit i =>
    step_task i e (fun t =>
      match t_pc t with
      | TkDeferred =>
        Some (set_pc TkExited (set_cancelled t),
              fun e' => if decide (0 < pending e')
                        then set_pending (pending e' - 1) e'
                        else set_panicked e')
      | _ => None
      end)
  | LShutdownSelect =>
    if shutdown_closed e then Some e else Some (set_closers (S (closers e)) e)
  | LShutdownClose =>
    match closers e with
    | S n => Some (close_shutdownCh (set_closers n e))
    | O => None
    end
  end.

(** Running a schedule. *)
Fixpoint exec (ls : list label) (e : engine) : option engine :=
  match ls with
  | [] => Some e
  | l :: ls' => e' ← step l e; exec ls' e'
  end.

(** The steps the engine and the retriever take by themselves: everything
    but the arrival of a request and the calls of [Shutdown]. *)
Definition internal (l : label) : bool :=
  match l with
  | LRecv _ | LShutdownSelect | LShutdownClose => false
  | _ => true
  end.

(** An accepted request has terminated when its retrieval has delivered its
    result and its tracking goroutine has received it and has finished. *)
Definition terminated (t : tracked) : bool :=
  match t_pc t, t_errCh t with
  | TkExited, ErrReceived => true
  | _, _ => false
  end.

(** The run loop holds a request it has received and not yet handed to the
    retriever. *)
Definition holds_request (e : engine) : bool :=
  match run e with RunDispatch _ => true | _ => false end.

(** The steps of the run loop after it has left its loop, and the one that
    makes it leave. *)
Definition run_exit_step (l : label) : bool :=
  match l with
  | LRunShutdown | LWaitReturns | LCloseDone => true
  | _ => false
  end.

(** ** What holds in every state of a started engine *)

(** A tracking goroutine that has not finished. *)
Definition active (t : tracked) : bool :=
  match t_pc t with TkExited => false | _ => true end.

Fixpoint active_count (ts : list tracked) : Z :=
  match ts with
  | [] => 0
  | t :: ts' => (if active t then 1 else 0) + active_count ts'
  end.

(** A goroutine is past its receive from [errCh] exactly when the value has
    been received; one that waits after [cancel()] got there by seeing
    [shutdownCh] closed. *)
Definition task_ok (shutdown : bool) (t : tracked) : Prop :=
  match t_pc t with
  | TkSelect => t_errCh t <> ErrReceived
  | TkCancelWait =>
    t_errCh t <> ErrReceived /\ t_cancelled t = true /\ shutdown = true
  | TkParentDone | TkDeferred | TkExited => t_errCh t = ErrReceived
  end.

Definition left_loop (r : run_pc) : bool :=
  match r with RunWait | RunClose | RunExited => true | _ => false end.

Definition wait_returned (r : run_pc) : bool :=
  match r with RunClose | RunExited => true | _ => false end.

Definition exited (r : run_pc) : bool :=
  match r with RunExited => true | _ => false end.

Record engine_inv (e : engine) : Prop := {
  inv_started : run e <> RunNotStarted;
  inv_pending : pending e = active_count (tasks e);
  inv_tasks : Forall (task_ok (shutdown_closed e)) (tasks e);
  inv_left : left_loop (run e) = true -> shutdown_closed e = true;
  inv_waited : wait_returned (run e) = true -> pending e = 0;
  inv_done : done_closed e = exited (run e);
}.

(** What holds in every state of an engine made with a nil retriever. *)
Record idle_inv (e : engine) : Prop := {
  idle_run : run e = RunNotStarted;
  idle_tasks : tasks e = [];
  idle_shutdown : shutdown_closed e = true;
  idle_done : done_closed e = true;
  idle_closers : closers e = 0%nat;
  idle_panicked : panicked e = false;
}.

(** A schedule that takes task [i], now in state [t], to its end: the
    retriever delivers if it has not, the goroutine receives, signals the
    parent, and runs its deferred calls. *)
Definition finish_task (i : nat) (t : tracked) : list label :=
  match t_pc t with
  | TkSelect =>
    match t_errCh t with
    | ErrPending => [LDeliver i None; LTaskErr i; LTaskParentDone i; LTaskExit i]
    | _ => [LTaskErr i; LTaskParentDone i; LTaskExit i]
    end
  | TkCancelWait =>
    match t_errCh t with
    | ErrPending => [LDeliver i None; LTaskDrain i; LTaskParentDone i; LTaskExit i]
    | _ => [LTaskDrain i; LTaskParentDone i; LTaskExit i]
    end
  | TkParentDone => [LTaskParentDone i; LTaskExit i]
  | TkDeferred => [LTaskExit i]
  | TkExited => []
  end.

(** The requests passed to [retriever.Request] so far. *)
Definition dispatched (e : engine) : list prefetchRequest :=
  t_req <$> tasks e.

(** ** Instances used to run the definitions *)

Definition onDemand100 : OnDemandPriority.
Proof.
  refine {| defaultOnDemandRequestPriority := 100 |};
    unfold GoInt.in_range, GoInt.min_int, GoInt.max_int; lia.
Defined.

Definition listInMapOrder : DirEntryLister.
Proof. refine {| dirEntryMapToDirEntries := named_entries |}. done. Defined.

Global Instance size_le_total : Total size_le.
Proof. intros a b. unfold size_le. lia. Qed.

Definition mergeSortBySize : dirEntriesBySizeAsc.
Proof.
  refine {| sort_Sort := merge_sort size_le |}.
  - apply merge_sort_Permutation.
  - intros l. apply (Sorted_merge_sort size_le).
Defined.

(** A small configuration: one cached pointer, data versions above 1
    rejected, the folder "synced" synced. *)
Definition ptrA : BlockPointer := mkBlockPointer "A" 1.
Definition ptrB : BlockPointer := mkBlockPointer "B" 1.
Definition ptrNew : BlockPointer := mkBlockPointer "N" 2.
Definition ptrCachedNew : BlockPointer := mkBlockPointer "C" 2.

Definition cfg0 : prefetcherConfig :=
  mkConfig (fun t => bool_decide (t = "synced"))
           (<[ptrA := BCommonBlock]> (<[ptrCachedNew := BCommonBlock]> ∅))
           (fun q => if decide (DataVer q <= 1) then None
                     else Some (mkDataVersionError (DataVer q))).

Definition p0 : blockPrefetcher := (newBlockPrefetcher true (Some cfg0)).1.
Definition kmd0 : KeyMetadata := mkKeyMetadata "private".
Definition kmdSynced : KeyMetadata := mkKeyMetadata "synced".
Definition w0 : world := mkWorld [] [] [] [].
Definition allSend : nat -> select_outcome := fun _ => SelSend.

(** Blocks and a schedule to run the definitions on. *)
Definition ptrD : BlockPointer := mkBlockPointer "D" 1.
Definition ptrE : BlockPointer := mkBlockPointer "E" 1.
Definition ptrS : BlockPointer := mkBlockPointer "S" 1.

(** An indirect file block whose only child is in the cache. *)
Definition fileOneCached : FileBlock :=
  mkFileBlock true [mkIndirectFilePtr ptrA 0] [].

(** An indirect file block and an indirect directory block with two
    children, none cached. *)
Definition fileTwo : FileBlock :=
  mkFileBlock true [mkIndirectFilePtr ptrB 0; mkIndirectFilePtr ptrD 150] [].
Definition dirTwo : DirBlock :=
  mkDirBlock true [mkIndirectDirPtr ptrB "a"; mkIndirectDirPtr ptrD "m"] ∅.

(** The directory of the test: a file of 100 bytes, a directory of 60 and
    an executable of 20. *)
Definition dirThree : DirBlock :=
  mkDirBlock false []
    (<["a" := mkDirEntry ptrB File 100 EmptyString]>
      (<["b" := mkDirEntry ptrD Dir 60 EmptyString]>
        (<["c" := mkDirEntry ptrE Exec 20 EmptyString]> ∅))).

(** A directory with a symbolic link smaller than its one file. *)
Definition dirWithSymlink : DirBlock :=
  mkDirBlock false []
    (<["s" := mkDirEntry ptrS Sym 5 EmptyString]>
      (<["f" := mkDirEntry ptrB File 10 EmptyString]> ∅)).

Definition req0 : prefetchRequest :=
  mkPrefetchRequest (-100) kmd0 ptrB (BFileBlock emptyFileBlock) 0%nat.

(** One request is accepted, [Shutdown] is called, the goroutine sees the
    shutdown, cancels and waits, the retriever delivers the cancellation,
    and the run loop winds up. *)
Definition schedule0 : list label :=
  [LRecv req0; LDispatch; LShutdownSelect; LShutdownClose; LTaskShutdown 0;
   LDeliver 0 (Some "context canceled"); LTaskDrain 0; LTaskParentDone 0;
   LTaskExit 0; LRunShutdown; LWaitReturns; LCloseDone].

(** The same up to the moment the goroutine waits for the retriever. *)
Definition schedule0_waiting : list label := take 5 schedule0.

(** A heap with one wait group that holds one unit. *)
Definition wOne : world := mkWorld [1] [] [] [].

(** The prefetcher made with a nil retriever, and its engine. *)
Definition pNil : blockPrefetcher := (newBlockPrefetcher false (Some cfg0)).1.
Definition eNil : engine := (newBlockPrefetcher false (Some cfg0)).2.

(** The engine of [p0]. *)
Definition e0 : engine := (newBlockPrefetcher true (Some cfg0)).2.

(** ** What a fan-out is expected to send *)

(** A call of [request] hands its request to the run loop when the pointer
    is not cached, its data version passes, and the select takes the send. *)
Definition admitted (cfg : prefetcherConfig) (ptr : BlockPointer)
    (sel : select_outcome) : bool :=
  match BlockCache cfg !! ptr, checkDataVersion cfg ptr, sel with
  | None, None, SelSend => true
  | _, _, _ => false
  end.

(** The request of the child at position [i] of a fan-out, if it is sent:
    [c] gives the child's pointer and the empty block it is to be read
    into ([None] for a child the policy skips), [prio i] its priority. *)
Definition child_request (cfg : prefetcherConfig) (kmd : KeyMetadata)
    (wg : wgref) (prio : nat -> Z) (sels : nat -> select_outcome)
    (i : nat) (c : BlockPointer * option Block) : option prefetchRequest :=
  blk ← c.2;
  if admitted cfg c.1 (sels i)
  then Some (mkPrefetchRequest (prio i) kmd c.1 blk wg)
  else None.

Definition fanout_requests (cfg : prefetcherConfig) (kmd : KeyMetadata)
    (wg : wgref) (prio : nat -> Z) (sels : nat -> select_outcome)
    (cs : list (BlockPointer * option Block)) : list prefetchRequest :=
  omap id (imap (child_request cfg kmd wg prio sels) cs).

(** The children skipped by the policy. *)
Definition skipped (cs : list (BlockPointer * option Block)) : nat :=
  length (filter (fun c => c.2 = None) cs).

(** The priority computed in iteration [i] of a loop that starts at [sp]:
    [startingPriority - i] on [int]. *)
Definition go_prio (sp : Z) (i : nat) : Z := GoInt.sub sp (Z.of_nat i).

(** The heap a fan-out over the children [cs] leaves when started in [w]:
    a new wait group that holds one unit per child not skipped, and the
    requests of the admitted children added to the channel traffic. *)
Definition after_fanout (cfg : prefetcherConfig) (kmd : KeyMetadata)
    (sels : nat -> select_outcome) (sp : Z)
    (cs : list (BlockPointer * option Block)) (w w' : world) : Prop :=
  wgs w' = wgs w ++ [Z.of_nat (length cs) - Z.of_nat (skipped cs)]
  /\ chans w' = chans w /\ waiters w' = waiters w
  /\ sent w' = sent w
       ++ fanout_requests cfg kmd (length (wgs w)) (go_prio sp) sels cs.

Section LoopBody.
Variables (p : blockPrefetcher) (kmd : KeyMetadata) (wg : wgref)
  (prio : nat -> Z) (sels : nat -> select_outcome).
Context {A : Type}.
Variables (ptrOf : A -> BlockPointer) (blockOf : A -> option Block)
  (nameOf : A -> string).

(** The body shared by the three loops: a call of [request] whose result is
    dropped, or, for a skipped child, [wg.Done()]. *)
Definition loop_body (i : nat) (x : A) : M unit :=
  match blockOf x with
  | Some blk =>
    request p (prio i) kmd (ptrOf x) blk (nameOf x) wg (sels i) ;;; ret tt
  | None => wg_Done wg
  end.

Definition as_child (x : A) : BlockPointer * option Block :=
  (ptrOf x, blockOf x).

End LoopBody.

Section Children.
Context `{odp : OnDemandPriority} `{lister : DirEntryLister}
  `{sorter : dirEntriesBySizeAsc}.

(** The entries of a direct directory block in the order the policy visits
    them. *)
Definition sortedEntries (b : DirBlock) : list DirEntry :=
  sort_Sort (dirEntryMapToDirEntries (Children b)).

(** The children of a retrieved block, in the order the policy visits them. *)
Definition children (b : Block) : list (BlockPointer * option Block) :=
  match b with
  | BFileBlock b =>
    if fIsInd b
    then (fun x => (ifpPointer x, Some (FileBlock_NewEmpty b))) <$> fIPtrs b
    else []
  | BDirBlock b =>
    if dIsInd b
    then (fun x => (idpPointer x, Some (DirBlock_NewEmpty b))) <$> dIPtrs b
    else (fun e => (entryPointer e, entryBlock (Type_ e))) <$> sortedEntries b
  | BCommonBlock => []
  end.

(** The base priority of the fan-out of a block. *)
Definition basePriority (b : Block) : Z :=
  match b with
  | BDirBlock b =>
    if dIsInd b then fileIndirectBlockPrefetchPriority
    else dirEntryPrefetchPriority
  | _ => fileIndirectBlockPrefetchPriority
  end.

(** The priority the first child of a fan-out gets. *)
Definition startingPriority (cfg : prefetcherConfig) (b : Block)
    (kmd : KeyMetadata) : Z :=
  if IsSyncedTlf cfg (TlfID kmd)
  then defaultOnDemandRequestPriority - 1
  else basePriority b.

(** Whether the type switch of [PrefetchAfterBlockRetrieved] reaches one of
    the three fan-out functions. *)
Definition fans_out (b : Block) : bool :=
  match b with
  | BFileBlock b => fIsInd b
  | BDirBlock _ => true
  | BCommonBlock => false
  end.

End Children.

(** ** More to say about the engine *)

(** The requests the run loop received in a schedule, oldest first. *)
Definition received (ls : list label) : list prefetchRequest :=
  omap (fun l => match l with LRecv req => Some req | _ => None end) ls.

(** The request the run loop has received and not yet dispatched. *)
Definition held (e : engine) : list prefetchRequest :=
  match run e with RunDispatch req => [req] | _ => [] end.

(** A tracking goroutine that has made its call of [req.wg.Done()]. *)
Definition past_parent_done (t : tracked) : bool :=
  match t_pc t with TkDeferred | TkExited => true | _ => false end.

(** The wait groups of the goroutines that have made that call. *)
Fixpoint released_of (ts : list tracked) : list wgref :=
  match ts with
  | [] => []
  | t :: ts' =>
    (if past_parent_done t then [wg (t_req t)] else []) ++ released_of ts'
  end.

(** A goroutine that is through has run its deferred [cancel()]. *)
Definition cancelled_when_exited (t : tracked) : Prop :=
  t_pc t = TkExited -> t_cancelled t = true.

(** What else every step of a started engine keeps: the calls of
    [req.wg.Done()] made so far are those of the goroutines past that
    call, one each, and a goroutine that is through has cancelled its
    context. *)
Record engine_inv2 (e : engine) : Prop := {
  inv_released : released e ≡ₚ released_of (tasks e);
  inv_cancelled : Forall cancelled_when_exited (tasks e);
}.

(** ** More to say about fan-outs *)

(** The children of a fan-out whose call of [request] returned without
    handing the request over. *)
Definition dropped (cfg : prefetcherConfig) (sels : nat -> select_outcome)
    (cs : list (BlockPointer * option Block)) : nat :=
  length (omap id (imap (fun i (c : BlockPointer * option Block) =>
                           match c.2 with
                           | Some _ =>
                             if admitted cfg c.1 (sels i) then None
                             else Some i
                           | None => None
                           end) cs)).

(** [k] calls of [wg.Done()], as the tracking goroutines of [k] requests of
    one fan-out make them. *)
Fixpoint wg_Done_times (l : wgref) (k : nat) : M unit :=
  match k with
  | O => ret tt
  | S k' => wg_Done l ;;; wg_Done_times l k'
  end.

(** An entry for which [prefetchDirectDirBlock] calls [request]. *)
Definition prefetchable (e : DirEntry) : bool :=
  match Type_ e with Dir | File | Exec => true | _ => false end.

(** * Facts *)

(** ** Running the definitions *)

Example indirect_dir_priorities :
  exists ch w',
    PrefetchAfterBlockRetrieved (odp := onDemand100)
      (lister := listInMapOrder) (sorter := mergeSortBySize)
      p0 (BDirBlock dirTwo) ptrA kmd0 allSend w0 = Some (ch, w')
    /\ ptr <$> sent w' = [ptrB; ptrD]
    /\ priority <$> sent w' = [-100; -101]
    /\ block <$> sent w' = [BDirBlock emptyDirBlock; BDirBlock emptyDirBlock].
Proof. eexists _, _. split; [vm_compute; reflexivity|]. done. Qed.

Example direct_dir_smallest_first :
  exists ch w',
    PrefetchAfterBlockRetrieved (odp := onDemand100)
      (lister := listInMapOrder) (sorter := mergeSortBySize)
      p0 (BDirBlock dirThree) ptrA kmd0 allSend w0 = Some (ch, w')
    /\ ptr <$> sent w' = [ptrE; ptrD; ptrB]
    /\ priority <$> sent w' = [-200; -201; -202]
    /\ block <$> sent w'
       = [BFileBlock emptyFileBlock; BDirBlock emptyDirBlock;
          BFileBlock emptyFileBlock].
Proof. eexists _, _. split; [vm_compute; reflexivity|]. done. Qed.

Example synced_folder_priorities :
  exists ch w',
    PrefetchAfterBlockRetrieved (odp := onDemand100)
      (lister := listInMapOrder) (sorter := mergeSortBySize)
      p0 (BDirBlock dirThree) ptrA kmdSynced allSend w0 = Some (ch, w')
    /\ priority <$> sent w' = [99; 98; 97].
Proof. eexists _, _. split; [vm_compute; reflexivity|]. done. Qed.

Example shutdown_drains_then_closes :
  exists e,
    exec schedule0 e0 = Some e
    /\ done_closed e = true /\ run e = RunExited /\ pending e = 0
    /\ released e = [0%nat].
Proof. eexists. split; [vm_compute; reflexivity|]. done. Qed.

Example waiting_goroutine_keeps_done_open :
  exists e t,
    exec schedule0_waiting e0 = Some e
    /\ tasks e = [t] /\ t_pc t = TkCancelWait /\ t_cancelled t = true
    /\ shutdown_closed e = true /\ done_closed e = false
    /\ step LRunShutdown e = Some (set_run RunWait e)
    /\ step LWaitReturns (set_run RunWait e) = None.
Proof. eexists _, _. split; [vm_compute; reflexivity|]. done. Qed.

(** The close of [doneCh] is a step of its own: after the last goroutine
    has gone the run loop still has to leave [wg.Wait()] and close. *)
Example done_closes_after_last_goroutine :
  exists e,
    exec (take 9 schedule0) e0 = Some e
    /\ shutdown_closed e = true /\ terminated <$> tasks e = [true]
    /\ done_closed e = false
    /\ done_closed <$> exec [LRunShutdown; LWaitReturns; LCloseDone] e
       = Some true.
Proof. eexists. split; [vm_compute; reflexivity|]. done. Qed.

Module GoIntFacts.
Import GoInt.

Lemma wrap_in_range z : in_range (wrap z).
Proof.
  unfold in_range, wrap, min_int, max_int.
  pose proof (Z.mod_pos_bound (z + 2 ^ 63) (2 ^ 64) ltac:(lia)). lia.
Qed.

Lemma wrap_id z : in_range z -> wrap z = z.
Proof.
  unfold in_range, wrap, min_int, max_int. intros Hz.
  rewrite Z.mod_small; lia.
Qed.

Lemma sub_exact a b : in_range (a - b) -> sub a b = a - b.
Proof. apply wrap_id. Qed.

End GoIntFacts.

(** ** Admission *)

Section RequestFacts.
Variables (p : blockPrefetcher) (cfg : prefetcherConfig).
Hypothesis Hcfg : config p = Some cfg.
Variables (priority : Z) (kmd : KeyMetadata) (ptr : BlockPointer)
  (block : Block) (entryName : string) (wg : wgref).

Lemma request_cache_hit sel w :
  is_Some (BlockCache cfg !! ptr) ->
  request p priority kmd ptr block entryName wg sel w = Some (None, w).
Proof.
  intros [blk Hget]. unfold request, bind, lift, ret.
  rewrite Hcfg, Hget. reflexivity.
Qed.

Lemma request_bad_version sel w e :
  BlockCache cfg !! ptr = None ->
  checkDataVersion cfg ptr = Some e ->
  request p priority kmd ptr block entryName wg sel w
  = Some (Some (ErrDataVersion e), w).
Proof.
  intros Hget Hver. unfold request, bind, lift, ret.
  rewrite Hcfg, Hget, Hver. reflexivity.
Qed.

Lemma request_shutdown w :
  BlockCache cfg !! ptr = None ->
  checkDataVersion cfg ptr = None ->
  request p priority kmd ptr block entryName wg SelShutdown w
  = Some (Some (ErrShutdownEOF (ID ptr)), w).
Proof.
  intros Hget Hver. unfold request, bind, lift, ret.
  rewrite Hcfg, Hget, Hver. reflexivity.
Qed.

Lemma request_send w :
  BlockCache cfg !! ptr = None ->
  checkDataVersion cfg ptr = None ->
  request p priority kmd ptr block entryName wg SelSend w
  = Some (None, set_sent
            (fun q => q ++ [mkPrefetchRequest priority kmd ptr block wg]) w).
Proof.
  intros Hget Hver. unfold request, bind, lift, ret.
  rewrite Hcfg, Hget, Hver. reflexivity.
Qed.

(** Every way [request] can return: the heap is the one it was given,
    except that a taken send adds its request to the channel traffic. *)
Lemma request_cases sel w :
  exists err w',
    request p priority kmd ptr block entryName wg sel w = Some (err, w')
    /\ wgs w' = wgs w /\ chans w' = chans w /\ waiters w' = waiters w
    /\ (sent w' = sent w
        \/ (sent w' = sent w ++ [mkPrefetchRequest priority kmd ptr block wg]
            /\ BlockCache cfg !! ptr = None
            /\ checkDataVersion cfg ptr = None
            /\ sel = SelSend /\ err = None)).
Proof.
  destruct (BlockCache cfg !! ptr) as [blk|] eqn:Hget.
  { exists None, w. rewrite request_cache_hit by eauto. auto 10. }
  destruct (checkDataVersion cfg ptr) as [e|] eqn:Hver.
  { eexists _, w. rewrite (request_bad_version _ _ e) by done. auto 10. }
  destruct sel.
  - eexists _, _. rewrite request_send by done.
    split; [reflexivity|]. simpl. auto 10.
  - eexists _, w. rewrite request_shutdown by done. auto 10.
Qed.

End RequestFacts.

(** ** The monad *)

Lemma bind_Some {A B} (m : M A) (k : A -> M B) w a w' :
  m w = Some (a, w') -> bind m k w = k a w'.
Proof. unfold bind. intros ->. reflexivity. Qed.

Lemma forRangeFrom_ext {A} (f g : nat -> A -> M unit) l :
  forall i w,
    (forall j x w1, f j x w1 = g j x w1) ->
    forRangeFrom i l f w = forRangeFrom i l g w.
Proof.
  induction l as [|x l IH]; intros i w Hfg; simpl; [done|].
  unfold bind. rewrite Hfg. destruct (g i x w) as [[[] w1]|]; [|done].
  by apply IH.
Qed.

(** ** The fan-out loop *)

Section LoopFacts.
Variables (p : blockPrefetcher) (cfg : prefetcherConfig).
Hypothesis Hcfg : config p = Some cfg.
Variables (kmd : KeyMetadata) (wg : wgref) (prio : nat -> Z)
  (sels : nat -> select_outcome).
Context {A : Type}.
Variables (ptrOf : A -> BlockPointer) (blockOf : A -> option Block)
  (nameOf : A -> string).

Local Abbreviation body := (loop_body p kmd wg prio sels ptrOf blockOf nameOf).
Local Abbreviation child := (as_child ptrOf blockOf).

Lemma loop_body_request i x blk w :
  blockOf x = Some blk ->
  exists w',
    body i x w = Some (tt, w')
    /\ wgs w' = wgs w /\ chans w' = chans w /\ waiters w' = waiters w
    /\ sent w' = sent w
         ++ from_option (fun r => [r]) []
              (child_request cfg kmd wg prio sels i (child x)).
Proof.
  intros Hblk. unfold loop_body. rewrite Hblk.
  unfold child_request, as_child, admitted. simpl. rewrite Hblk. simpl.
  destruct (BlockCache cfg !! ptrOf x) as [c|] eqn:Hget.
  { exists w. rewrite (bind_Some _ _ _ None w)
      by (eapply request_cache_hit; eauto).
    unfold ret. by rewrite app_nil_r. }
  destruct (checkDataVersion cfg (ptrOf x)) as [e|] eqn:Hver.
  { exists w. rewrite (bind_Some _ _ _ (Some (ErrDataVersion e)) w)
      by (eapply request_bad_version; eauto).
    unfold ret. by rewrite app_nil_r. }
  destruct (sels i) eqn:Hsel.
  - eexists. erewrite bind_Some by (eapply request_send; eauto).
    unfold ret. split; [reflexivity|]. simpl. auto.
  - exists w. erewrite bind_Some by (eapply request_shutdown; eauto).
    unfold ret. by rewrite app_nil_r.
Qed.

Lemma loop_body_skip i x w c :
  blockOf x = None -> wgs w !! wg = Some c -> 0 < c ->
  body i x w = Some (tt, set_wgs (fun cs => <[wg := c - 1]> cs) w)
  /\ child_request cfg kmd wg prio sels i (child x) = None.
Proof.
  intros Hblk Hc Hpos. unfold loop_body, child_request, as_child. simpl.
  rewrite Hblk. simpl. split; [|done].
  unfold wg_Done, wg_Add. rewrite Hc.
  rewrite decide_True by lia. do 3 f_equal.
Qed.

Lemma skipped_cons_Some (c : BlockPointer * option Block) cs blk :
  c.2 = Some blk -> skipped (c :: cs) = skipped cs.
Proof.
  intros Hc. unfold skipped. rewrite filter_cons.
  rewrite decide_False by (by rewrite Hc). done.
Qed.

Lemma skipped_cons_None (c : BlockPointer * option Block) cs :
  c.2 = None -> skipped (c :: cs) = S (skipped cs).
Proof.
  intros Hc. unfold skipped. rewrite filter_cons.
  rewrite decide_True by done. done.
Qed.

(** The whole loop: it returns, every skipped child has taken one unit off
    the wait group, and the channel has got the requests of the admitted
    children, in the order of the list. *)
Lemma fanout_loop l :
  forall i w c,
    wgs w !! wg = Some c ->
    Z.of_nat (skipped (child <$> l)) <= c ->
    exists w',
      forRangeFrom i l body w = Some (tt, w')
      /\ wgs w' = <[wg := c - Z.of_nat (skipped (child <$> l))]> (wgs w)
      /\ chans w' = chans w /\ waiters w' = waiters w
      /\ sent w' = sent w
           ++ omap id (imap (fun j => child_request cfg kmd wg prio sels (i + j))
                         (child <$> l)).
Proof.
  induction l as [|x l IH]; intros i w c Hc Hle.
  { exists w. simpl. unfold ret, skipped. simpl.
    rewrite Z.sub_0_r, list_insert_id by done. by rewrite app_nil_r. }
  simpl forRangeFrom. rewrite fmap_cons in Hle |- *. rewrite imap_cons.
  replace (i + 0)%nat with i by lia.
  assert (Himap :
    imap ((fun j => child_request cfg kmd wg prio sels (i + j)) ∘ S) (child <$> l)
    = imap (fun j => child_request cfg kmd wg prio sels (S i + j)) (child <$> l)).
  { apply imap_ext. intros j y _. simpl. f_equal. lia. }
  rewrite Himap. clear Himap.
  destruct (blockOf x) as [blk|] eqn:Hblk.
  - rewrite (skipped_cons_Some _ _ blk) in Hle |- * by done.
    destruct (loop_body_request i x blk w Hblk)
      as (w1 & Hrun & Hwgs & Hch & Hwt & Hsent).
    destruct (IH (S i) w1 c) as (w2 & Hrun2 & Hwgs2 & Hch2 & Hwt2 & Hsent2);
      [by rewrite Hwgs|done|].
    exists w2. rewrite (bind_Some _ _ _ _ _ Hrun).
    split; [done|]. rewrite Hwgs2, Hch2, Hwt2, Hsent2, Hwgs, Hch, Hwt, Hsent.
    repeat split; try done.
    rewrite <- app_assoc. f_equal.
    by destruct (child_request cfg kmd wg prio sels i (child x)).
  - rewrite skipped_cons_None in Hle |- * by done.
    destruct (loop_body_skip i x w c Hblk Hc ltac:(lia)) as [Hrun Hnone].
    set (w1 := set_wgs (fun cs => <[wg := c - 1]> cs) w) in *.
    assert (Hlt : (wg < length (wgs w))%nat) by (by eapply lookup_lt_Some).
    destruct (IH (S i) w1 (c - 1)) as (w2 & Hrun2 & Hwgs2 & Hch2 & Hwt2 & Hsent2).
    { subst w1. simpl. by rewrite list_lookup_insert_eq. }
    { lia. }
    exists w2. rewrite (bind_Some _ _ _ _ _ Hrun).
    split; [done|]. rewrite Hwgs2, Hch2, Hwt2, Hsent2. subst w1. simpl.
    rewrite list_insert_insert_eq.
    repeat split; try done.
    + f_equal. lia.
    + f_equal. by rewrite Hnone.
Qed.

End LoopFacts.

(** ** Wait groups and channels *)

Lemma insert_at_end {A} (l : list A) (x y : A) :
  <[length l := y]> (l ++ [x]) = l ++ [y].
Proof.
  rewrite insert_app_r_alt by lia. by rewrite Nat.sub_diag.
Qed.

Lemma lookup_at_end {A} (l : list A) (x : A) : (l ++ [x]) !! length l = Some x.
Proof. rewrite lookup_app_r by lia. by rewrite Nat.sub_diag. Qed.

(** [wg := &sync.WaitGroup{}; wg.Add(n)] makes a counter that holds [n]. *)
Lemma wg_new_Add {B} (n : Z) (k : wgref -> M B) w :
  0 <= n ->
  (wg <- wg_new ;; wg_Add wg n ;;; k wg) w
  = k (length (wgs w)) (set_wgs (fun l => l ++ [n]) w).
Proof.
  intros Hn. unfold bind at 1. unfold wg_new.
  unfold bind at 1. unfold wg_Add. simpl.
  rewrite lookup_at_end. rewrite decide_True by lia.
  f_equal. unfold set_wgs. simpl. by rewrite insert_at_end.
Qed.

(** [doneCh := make(chan struct{}); close(doneCh)] *)
Lemma make_close w :
  (doneCh <- make_chan ;; close_chan doneCh ;;; ret doneCh) w
  = Some (length (chans w), set_chans (fun l => l ++ [true]) w).
Proof.
  unfold bind, make_chan, close_chan, ret. simpl.
  rewrite lookup_at_end. do 2 f_equal.
  unfold set_chans. simpl. by rewrite insert_at_end.
Qed.

(** ** Priorities *)

Section PriorityFacts.
Context `{odp : OnDemandPriority}.
Variables (p : blockPrefetcher) (cfg : prefetcherConfig).
Hypothesis Hcfg : config p = Some cfg.

Lemma calculatePriority_eq basePriority tlf w :
  calculatePriority p basePriority tlf w
  = Some (if IsSyncedTlf cfg tlf then defaultOnDemandRequestPriority - 1
          else basePriority, w).
Proof.
  unfold calculatePriority, bind, lift, ret. rewrite Hcfg.
  by destruct (IsSyncedTlf cfg tlf).
Qed.

End PriorityFacts.

(** ** The three fan-outs and the entry points *)

Section FanoutFacts.
Context `{odp : OnDemandPriority} `{lister : DirEntryLister}
  `{sorter : dirEntriesBySizeAsc}.
Variables (p : blockPrefetcher) (cfg : prefetcherConfig).
Hypothesis Hcfg : config p = Some cfg.
Variables (kmd : KeyMetadata) (sels : nat -> select_outcome).

Lemma skipped_le cs : (skipped cs <= length cs)%nat.
Proof. unfold skipped. apply length_filter. Qed.

Lemma fanout_generic {A} (l : list A) (ptrOf : A -> BlockPointer)
    (blockOf : A -> option Block) (nameOf : A -> string)
    (basePri : Z) (f : wgref -> Z -> nat -> A -> M unit) w :
  (forall wg sp i x w1,
     f wg sp i x w1
     = loop_body p kmd wg (go_prio sp) sels ptrOf blockOf nameOf i x w1) ->
  let sp := if IsSyncedTlf cfg (TlfID kmd)
            then defaultOnDemandRequestPriority - 1 else basePri in
  exists w',
    (wg <- wg_new ;;
     wg_Add wg (Z.of_nat (length l)) ;;;
     startingPriority <- calculatePriority p basePri (TlfID kmd) ;;
     forRange l (f wg startingPriority) ;;;
     ret wg) w = Some (length (wgs w), w')
    /\ after_fanout cfg kmd sels sp (as_child ptrOf blockOf <$> l) w w'.
Proof.
  intros Hf sp. rewrite wg_new_Add by lia.
  set (w1 := set_wgs _ w).
  rewrite (bind_Some _ _ _ _ _ (calculatePriority_eq p cfg Hcfg basePri _ w1)).
  fold sp.
  destruct (fanout_loop p cfg Hcfg kmd (length (wgs w)) (go_prio sp) sels
              ptrOf blockOf nameOf l 0%nat w1 (Z.of_nat (length l)))
    as (w2 & Hrun & Hwgs & Hch & Hwt & Hsent).
  { subst w1. simpl. apply lookup_at_end. }
  { pose proof (skipped_le (as_child ptrOf blockOf <$> l)) as Hle.
    rewrite length_fmap in Hle. lia. }
  exists w2.
  assert (Hrun' : forRange l (f (length (wgs w)) sp) w1 = Some (tt, w2)).
  { rewrite <- Hrun. apply forRangeFrom_ext. intros. apply Hf. }
  rewrite (bind_Some _ _ _ _ _ Hrun'). split; [done|].
  unfold after_fanout. rewrite Hwgs, Hch, Hwt, Hsent. subst w1. simpl.
  rewrite insert_at_end, length_fmap. done.
Qed.

Lemma prefetchIndirectFileBlock_eq (b : FileBlock) w :
  exists w',
    prefetchIndirectFileBlock p b kmd sels w = Some (length (wgs w), w')
    /\ after_fanout cfg kmd sels
         (startingPriority cfg (BFileBlock b) kmd)
         ((fun x => (ifpPointer x, Some (FileBlock_NewEmpty b))) <$> fIPtrs b)
         w w'.
Proof.
  apply (fanout_generic (fIPtrs b) ifpPointer
           (fun _ => Some (FileBlock_NewEmpty b)) (fun _ => EmptyString)
           fileIndirectBlockPrefetchPriority
           (fun wg sp i ptr =>
              request p (GoInt.sub sp (Z.of_nat i)) kmd (ifpPointer ptr)
                (FileBlock_NewEmpty b) EmptyString wg (sels i) ;;; ret tt)).
  reflexivity.
Qed.

Lemma prefetchIndirectDirBlock_eq (b : DirBlock) w :
  dIsInd b = true ->
  exists w',
    prefetchIndirectDirBlock p b kmd sels w = Some (length (wgs w), w')
    /\ after_fanout cfg kmd sels
         (startingPriority cfg (BDirBlock b) kmd)
         ((fun x => (idpPointer x, Some (DirBlock_NewEmpty b))) <$> dIPtrs b)
         w w'.
Proof.
  intros Hind. unfold startingPriority, basePriority. rewrite Hind.
  apply (fanout_generic (dIPtrs b) idpPointer
           (fun _ => Some (DirBlock_NewEmpty b)) (fun _ => EmptyString)
           fileIndirectBlockPrefetchPriority
           (fun wg sp i ptr =>
              request p (GoInt.sub sp (Z.of_nat i)) kmd (idpPointer ptr)
                (DirBlock_NewEmpty b) EmptyString wg (sels i) ;;; ret tt)).
  reflexivity.
Qed.

Lemma prefetchDirectDirBlock_eq (ptr : BlockPointer) (b : DirBlock) w :
  dIsInd b = false ->
  exists w',
    prefetchDirectDirBlock p ptr b kmd sels w = Some (length (wgs w), w')
    /\ after_fanout cfg kmd sels
         (startingPriority cfg (BDirBlock b) kmd)
         ((fun e => (entryPointer e, entryBlock (Type_ e))) <$> sortedEntries b)
         w w'.
Proof.
  intros Hind. unfold startingPriority, basePriority. rewrite Hind.
  apply (fanout_generic (sortedEntries b) entryPointer
           (fun e => entryBlock (Type_ e)) entryName
           dirEntryPrefetchPriority
           (fun wg sp i entry =>
              match entryBlock (Type_ entry) with
              | Some block =>
                request p (GoInt.sub sp (Z.of_nat i)) kmd (entryPointer entry)
                  block (entryName entry) wg (sels i) ;;; ret tt
              | None => wg_Done wg
              end)).
  reflexivity.
Qed.

(** A block that fans out: the call returns a new, open channel, a goroutine
    waits on the new wait group, and the requests of the admitted children
    have gone to the run loop. *)
Lemma PrefetchAfterBlockRetrieved_fanout (b : Block) (ptr : BlockPointer) w :
  fans_out b = true ->
  exists w',
    PrefetchAfterBlockRetrieved p b ptr kmd sels w = Some (length (chans w), w')
    /\ wgs w' = wgs w ++ [Z.of_nat (length (children b))
                           - Z.of_nat (skipped (children b))]
    /\ chans w' = chans w ++ [false]
    /\ waiters w' = waiters w ++ [(length (wgs w), length (chans w))]
    /\ sent w' = sent w
         ++ fanout_requests cfg kmd (length (wgs w))
              (go_prio (startingPriority cfg b kmd)) sels (children b).
Proof.
  intros Hfan. unfold PrefetchAfterBlockRetrieved.
  unfold bind at 1. unfold make_chan.
  set (w1 := set_chans _ w).
  assert (Hw1 : wgs w1 = wgs w /\ sent w1 = sent w /\ waiters w1 = waiters w
                /\ chans w1 = chans w ++ [false]) by done.
  destruct Hw1 as (Hwg1 & Hs1 & Hwt1 & Hc1).
  assert (exists w2,
    (match b with
     | BFileBlock b =>
       if fIsInd b
       then wg <- prefetchIndirectFileBlock p b kmd sels ;; ret (Some wg)
       else close_chan (length (chans w)) ;;; ret None
     | BDirBlock b =>
       if dIsInd b
       then wg <- prefetchIndirectDirBlock p b kmd sels ;; ret (Some wg)
       else wg <- prefetchDirectDirBlock p ptr b kmd sels ;; ret (Some wg)
     | BCommonBlock => close_chan (length (chans w)) ;;; ret None
     end) w1 = Some (Some (length (wgs w)), w2)
    /\ after_fanout cfg kmd sels (startingPriority cfg b kmd) (children b) w1 w2)
    as (w2 & Hrun & Hwgs & Hch & Hwt & Hsent).
  { destruct b as [fb|db|]; simpl in Hfan; [| |done].
    - simpl children. rewrite Hfan.
      destruct (prefetchIndirectFileBlock_eq fb w1) as (w2 & Hrun & Haf).
      exists w2. rewrite (bind_Some _ _ _ _ _ Hrun). by rewrite Hwg1.
    - simpl children. destruct (dIsInd db) eqn:Hind.
      + destruct (prefetchIndirectDirBlock_eq db w1 Hind) as (w2 & Hrun & Haf).
        exists w2. rewrite (bind_Some _ _ _ _ _ Hrun). by rewrite Hwg1.
      + destruct (prefetchDirectDirBlock_eq ptr db w1 Hind) as (w2 & Hrun & Haf).
        exists w2. rewrite (bind_Some _ _ _ _ _ Hrun). by rewrite Hwg1. }
  eexists. rewrite (bind_Some _ _ _ _ _ Hrun).
  unfold bind, go_wait_close, ret. split; [reflexivity|]. simpl.
  rewrite Hwgs, Hch, Hwt, Hsent, Hwg1, Hs1, Hwt1, Hc1. done.
Qed.

(** A block that does not fan out: the call returns a new channel that it
    has closed itself, and nothing else has changed. *)
Lemma PrefetchAfterBlockRetrieved_leaf (b : Block) (ptr : BlockPointer) w :
  fans_out b = false ->
  PrefetchAfterBlockRetrieved p b ptr kmd sels w
  = Some (length (chans w), set_chans (fun l => l ++ [true]) w).
Proof.
  intros Hfan. rewrite <- make_close.
  unfold PrefetchAfterBlockRetrieved.
  destruct b as [fb|db|]; simpl in Hfan; [rewrite Hfan| |]; try done.
  all: unfold bind, make_chan, close_chan, ret; simpl;
    rewrite lookup_at_end; done.
Qed.

End FanoutFacts.

(** ** What reaches the run loop *)

Lemma elem_of_fanout_requests cfg kmd wg prio sels cs r :
  r ∈ fanout_requests cfg kmd wg prio sels cs <->
  exists i c blk,
    cs !! i = Some c /\ c.2 = Some blk
    /\ admitted cfg c.1 (sels i) = true
    /\ r = mkPrefetchRequest (prio i) kmd c.1 blk wg.
Proof.
  unfold fanout_requests. rewrite list_elem_of_omap. split.
  - intros (o & Ho & Hr). simpl in Hr. subst o.
    apply elem_of_lookup_imap in Ho as (i & c & Heq & Hi).
    unfold child_request in Heq.
    destruct (c.2) as [blk|] eqn:Hblk; simpl in Heq; [|done].
    destruct (admitted cfg c.1 (sels i)) eqn:Hadm; [|done].
    exists i, c, blk. by inversion Heq.
  - intros (i & c & blk & Hi & Hblk & Hadm & ->).
    exists (Some (mkPrefetchRequest (prio i) kmd c.1 blk wg)). split; [|done].
    apply elem_of_lookup_imap. exists i, c. split; [|done].
    unfold child_request. rewrite Hblk. simpl. by rewrite Hadm.
Qed.

Lemma admitted_true cfg ptr sel :
  admitted cfg ptr sel = true <->
  BlockCache cfg !! ptr = None /\ checkDataVersion cfg ptr = None
  /\ sel = SelSend.
Proof.
  unfold admitted.
  destruct (BlockCache cfg !! ptr), (checkDataVersion cfg ptr), sel;
    split; try done; intros (? & ? & ?); done.
Qed.

Lemma fanout_requests_ext cfg kmd wg prio prio' sels cs :
  (forall i, (i < length cs)%nat -> prio i = prio' i) ->
  fanout_requests cfg kmd wg prio sels cs
  = fanout_requests cfg kmd wg prio' sels cs.
Proof.
  intros Hext. unfold fanout_requests. f_equal. apply imap_ext.
  intros i c Hi. unfold child_request.
  rewrite Hext by (by eapply lookup_lt_Some). done.
Qed.

(** The requests of a fan-out come in the order of the children: their
    priorities fall strictly when [prio] does. *)
Lemma fanout_requests_decreasing cfg kmd wg prio sels cs :
  (forall i j, (i < j < length cs)%nat -> prio j < prio i) ->
  StronglySorted (fun r1 r2 => priority r2 < priority r1)
    (fanout_requests cfg kmd wg prio sels cs).
Proof.
  unfold fanout_requests. revert prio sels.
  induction cs as [|c cs IH]; intros prio sels Hdec; [constructor|].
  rewrite imap_cons. simpl.
  assert (Htail := IH (prio ∘ S) (sels ∘ S)
            ltac:(intros i j Hij; simpl; apply Hdec; simpl; lia)).
  assert (Himap : imap (child_request cfg kmd wg prio sels ∘ S) cs
                  = imap (child_request cfg kmd wg (prio ∘ S) (sels ∘ S)) cs)
    by done.
  rewrite Himap.
  destruct (child_request cfg kmd wg prio sels 0 c) as [r|] eqn:Hr;
    simpl; [|done].
  constructor; [done|].
  apply Forall_forall. intros r' Hr'.
  apply (elem_of_fanout_requests cfg kmd wg (prio ∘ S) (sels ∘ S)) in Hr'
    as (j & c' & blk & Hj & _ & _ & ->).
  unfold child_request in Hr. destruct (c.2); simpl in Hr; [|done].
  destruct (admitted cfg c.1 (sels 0%nat)); [|done].
  inversion Hr. simpl. apply Hdec. simpl.
  apply lookup_lt_Some in Hj. lia.
Qed.

Lemma go_prio_exact sp n i :
  GoInt.in_range sp -> GoInt.min_int <= sp - Z.of_nat n -> (i < n)%nat ->
  go_prio sp i = sp - Z.of_nat i.
Proof.
  intros [Hlo Hhi] Hmin Hi. unfold go_prio. apply GoIntFacts.sub_exact.
  unfold GoInt.in_range. lia.
Qed.

(** ** The engine: counting the tracking goroutines *)

Lemma active_count_nonneg ts : 0 <= active_count ts.
Proof. induction ts as [|t ts IH]; simpl; [lia|]. destruct (active t); lia. Qed.

Lemma active_count_app ts t :
  active_count (ts ++ [t]) = active_count ts + (if active t then 1 else 0).
Proof. induction ts as [|t0 ts IH]; simpl; [lia|]. rewrite IH. lia. Qed.

Lemma active_count_insert ts i t t' :
  ts !! i = Some t ->
  active_count (<[i := t']> ts)
  = active_count ts - (if active t then 1 else 0) + (if active t' then 1 else 0).
Proof.
  revert i. induction ts as [|t0 ts IH]; intros [|i] Hi; simpl in *; try done.
  - inversion Hi. lia.
  - rewrite (IH i) by done. lia.
Qed.

Lemma active_count_pos ts i t :
  ts !! i = Some t -> active t = true -> 0 < active_count ts.
Proof.
  revert i. induction ts as [|t0 ts IH]; intros [|i] Hi Hact; simpl in *;
    try done.
  - inversion Hi. subst. rewrite Hact. pose proof (active_count_nonneg ts). lia.
  - pose proof (IH i Hi Hact). destruct (active t0); lia.
Qed.

Lemma active_count_zero ts :
  active_count ts = 0 -> Forall (fun t => active t = false) ts.
Proof.
  induction ts as [|t ts IH]; simpl; intros Hz; [constructor|].
  pose proof (active_count_nonneg ts).
  destruct (active t) eqn:Hact; [lia|].
  constructor; [done|]. apply IH. lia.
Qed.

Lemma active_count_all_exited ts :
  Forall (fun t => active t = false) ts -> active_count ts = 0.
Proof. induction 1 as [|t ts Ht _ IH]; simpl; [done|]. rewrite Ht, IH. done. Qed.

Lemma task_ok_mono sd sd' t :
  (sd = true -> sd' = true) -> task_ok sd t -> task_ok sd' t.
Proof. unfold task_ok. destruct (t_pc t); intuition. Qed.

Lemma Forall_task_ok_mono sd sd' ts :
  (sd = true -> sd' = true) ->
  Forall (task_ok sd) ts -> Forall (task_ok sd') ts.
Proof.
  intros Hsd Hts. eapply Forall_impl; [exact Hts|].
  intros t. by apply task_ok_mono.
Qed.

(** ** The engine: one step *)

Lemma step_task_Some i e f e' :
  step_task i e f = Some e' ->
  exists t t' g,
    tasks e !! i = Some t /\ f t = Some (t', g)
    /\ e' = g (set_tasks (<[i := t']> (tasks e)) e).
Proof.
  unfold step_task. destruct (tasks e !! i) as [t|] eqn:Hi; simpl; [|done].
  destruct (f t) as [[t' g]|] eqn:Hf; simpl; [|done].
  intros [= <-]. by exists t, t', g.
Qed.

Lemma step_not_panicked l e e' : step l e = Some e' -> panicked e = false.
Proof. unfold step. by destruct (panicked e). Qed.

Lemma task_step_inv e i t t' :
  engine_inv e ->
  tasks e !! i = Some t ->
  active t' = active t ->
  task_ok (shutdown_closed e) t' ->
  engine_inv (set_tasks (<[i := t']> (tasks e)) e).
Proof.
  intros [Hst Hpend Hts Hleft Hwait Hdone] Hi Hact Hok.
  constructor; simpl; try done.
  - rewrite (active_count_insert _ _ t) by done. rewrite Hact, Hpend.
    destruct (active t); lia.
  - by apply Forall_insert.
Qed.

(** Every step keeps the invariant of a started engine. *)
Lemma engine_inv_step l e e' :
  engine_inv e -> step l e = Some e' -> engine_inv e'.
Proof.
  intros Hinv Hstep. pose proof Hinv as [Hst Hpend Hts Hleft Hwait Hdone].
  unfold step in Hstep. destruct (panicked e) eqn:Hp; [done|].
  destruct l.
  - (* LRecv *)
    destruct (run e) eqn:Hrun; try done. injection Hstep as <-.
    constructor; simpl; try done.
  - (* LRunShutdown *)
    destruct (run e) eqn:Hrun; try done.
    destruct (shutdown_closed e) eqn:Hsd; [|done]. injection Hstep as <-.
    constructor; simpl; rewrite ?Hsd; try done.
  - (* LDispatch *)
    destruct (run e) eqn:Hrun; try done. injection Hstep as <-.
    constructor; simpl; try done.
    + rewrite active_count_app. simpl. lia.
    + apply Forall_app. split; [done|]. by repeat constructor.
  - (* LWaitReturns *)
    destruct (run e) eqn:Hrun; try done.
    destruct (decide (pending e = 0)); [|done]. injection Hstep as <-.
    constructor; simpl; try done.
  - (* LCloseDone *)
    destruct (run e) eqn:Hrun; try done. injection Hstep as <-.
    unfold close_doneCh. rewrite Hdone. simpl.
    constructor; simpl; try done.
  - (* LDeliver *)
    apply step_task_Some in Hstep as (t & t' & g & Hi & Hf & ->).
    pose proof (proj1 (Forall_lookup _ _) Hts i t Hi) as Hok.
    destruct (t_errCh t) eqn:Herr; try done. injection Hf as <- <-.
    apply (task_step_inv e i t); try done.
    unfold task_ok in *. simpl. rewrite Herr in Hok.
    destruct (t_pc t); intuition done.
  - (* LTaskErr *)
    apply step_task_Some in Hstep as (t & t' & g & Hi & Hf & ->).
    destruct (t_pc t) eqn:Hpc; try done.
    destruct (t_errCh t) eqn:Herr; try done. injection Hf as <- <-.
    apply (task_step_inv e i t); try done.
    unfold active. simpl. by rewrite Hpc.
  - (* LTaskShutdown *)
    destruct (shutdown_closed e) eqn:Hsd; [|done].
    apply step_task_Some in Hstep as (t & t' & g & Hi & Hf & ->).
    pose proof (proj1 (Forall_lookup _ _) Hts i t Hi) as Hok.
    destruct (t_pc t) eqn:Hpc; try done. injection Hf as <- <-.
    apply (task_step_inv e i t); try done.
    + unfold active. simpl. by rewrite Hpc.
    + unfold task_ok in *. rewrite Hpc in Hok. simpl. by rewrite Hsd.
  - (* LTaskDrain *)
    apply step_task_Some in Hstep as (t & t' & g & Hi & Hf & ->).
    destruct (t_pc t) eqn:Hpc; try done.
    destruct (t_errCh t) eqn:Herr; try done. injection Hf as <- <-.
    apply (task_step_inv e i t); try done.
    unfold active. simpl. by rewrite Hpc.
  - (* LTaskParentDone *)
    apply step_task_Some in Hstep as (t & t' & g & Hi & Hf & ->).
    pose proof (proj1 (Forall_lookup _ _) Hts i t Hi) as Hok.
    destruct (t_pc t) eqn:Hpc; try done. injection Hf as <- <-.
    assert (Hinv' : engine_inv
              (set_tasks (<[i := set_pc TkDeferred t]> (tasks e)) e)).
    { apply (task_step_inv e i t); try done.
      - unfold active. simpl. by rewrite Hpc.
      - unfold task_ok in *. by rewrite Hpc in Hok. }
    destruct Hinv'. constructor; done.
  - (* LTaskExit *)
    apply step_task_Some in Hstep as (t & t' & g & Hi & Hf & ->).
    pose proof (proj1 (Forall_lookup _ _) Hts i t Hi) as Hok.
    destruct (t_pc t) eqn:Hpc; try done. injection Hf as <- <-.
    assert (Hpos : 0 < pending e).
    { rewrite Hpend. apply (active_count_pos _ i t Hi).
      unfold active. by rewrite Hpc. }
    simpl. rewrite decide_True by done.
    constructor; simpl; try done.
    + rewrite (active_count_insert _ _ t) by done.
      unfold active at 1 2. simpl. rewrite Hpc. lia.
    + apply Forall_insert; [done|].
      unfold task_ok in *. by rewrite Hpc in Hok.
    + intros Hw. specialize (Hwait Hw). lia.
  - (* LShutdownSelect *)
    destruct (shutdown_closed e) eqn:Hsd; injection Hstep as <-; [done|].
    constructor; simpl; rewrite ?Hsd; try done.
  - (* LShutdownClose *)
    destruct (closers e) as [|n] eqn:Hcl; [done|]. injection Hstep as <-.
    unfold close_shutdownCh. simpl.
    destruct (shutdown_closed e) eqn:Hsd.
    + constructor; simpl; rewrite ?Hsd; try done.
    + constructor; simpl; rewrite ?Hsd; try done.
      by eapply Forall_task_ok_mono; [|exact Hts].
Qed.

(** ** The engine: schedules *)

Lemma exec_app ls1 ls2 e :
  exec (ls1 ++ ls2) e = e' ← exec ls1 e; exec ls2 e'.
Proof.
  revert e. induction ls1 as [|l ls1 IH]; intros e; simpl; [done|].
  destruct (step l e) as [e1|]; simpl; [apply IH|done].
Qed.

Lemma engine_inv_exec ls e e' :
  engine_inv e -> exec ls e = Some e' -> engine_inv e'.
Proof.
  revert e. induction ls as [|l ls IH]; intros e Hinv Hex; simpl in Hex.
  - by injection Hex as <-.
  - destruct (step l e) as [e1|] eqn:Hstep; simpl in Hex; [|done].
    eapply IH; [|exact Hex]. by eapply engine_inv_step.
Qed.

Lemma engine_inv_init config :
  engine_inv (newBlockPrefetcher true config).2.
Proof. by constructor. Qed.

(** With a nil retriever no step changes the engine. *)
Lemma idle_inv_step l e e' : idle_inv e -> step l e = Some e' -> e' = e.
Proof.
  intros [Hrun Hts Hsd Hdone Hcl Hp] Hstep. unfold step in Hstep.
  rewrite Hp in Hstep.
  destruct l; rewrite ?Hrun, ?Hsd, ?Hcl in Hstep; try done;
    try (by injection Hstep as <-);
    try (apply step_task_Some in Hstep as (t & _ & _ & Hi & _);
         by rewrite Hts in Hi).
Qed.

Lemma idle_inv_exec ls e e' : idle_inv e -> exec ls e = Some e' -> e' = e.
Proof.
  revert e. induction ls as [|l ls IH]; intros e Hinv Hex; simpl in Hex.
  - by injection Hex as <-.
  - destruct (step l e) as [e1|] eqn:Hstep; simpl in Hex; [|done].
    apply (idle_inv_step _ _ _ Hinv) in Hstep as ->. by apply IH.
Qed.

Lemma idle_inv_init config : idle_inv (newBlockPrefetcher false config).2.
Proof. by constructor. Qed.

(** ** The engine: when [doneCh] is closed *)

Lemma terminated_active t : terminated t = true -> active t = false.
Proof. unfold terminated, active. by destruct (t_pc t). Qed.

Lemma exited_terminated sd t :
  task_ok sd t -> active t = false -> terminated t = true.
Proof.
  unfold task_ok, active, terminated.
  destruct (t_pc t); try done. by intros ->.
Qed.

Lemma done_closed_drained e :
  engine_inv e -> done_closed e = true ->
  shutdown_closed e = true
  /\ Forall (fun t => terminated t = true) (tasks e)
  /\ holds_request e = false.
Proof.
  intros [Hst Hpend Hts Hleft Hwait Hdone] Hd.
  rewrite Hdone in Hd. unfold holds_request.
  destruct (run e) eqn:Hrun; try done.
  split; [by apply Hleft|]. split; [|done].
  specialize (Hwait eq_refl). rewrite Hpend in Hwait.
  apply active_count_zero in Hwait.
  apply Forall_forall. intros t Ht.
  eapply exited_terminated.
  - by eapply (proj1 (Forall_forall _ _) Hts).
  - by eapply (proj1 (Forall_forall _ _) Hwait).
Qed.

(** A goroutine that waits after its [cancel()] keeps [doneCh] open. *)
Lemma cancel_wait_blocks_done e i t :
  engine_inv e -> tasks e !! i = Some t -> t_pc t = TkCancelWait ->
  t_cancelled t = true /\ t_errCh t <> ErrReceived /\ done_closed e = false.
Proof.
  intros Hinv Hi Hpc. pose proof Hinv as [Hst Hpend Hts Hleft Hwait Hdone].
  pose proof (proj1 (Forall_lookup _ _) Hts i t Hi) as Hok.
  unfold task_ok in Hok. rewrite Hpc in Hok. destruct Hok as (Herr & Hc & _).
  split; [done|]. split; [done|].
  destruct (done_closed e) eqn:Hd; [|done].
  destruct (done_closed_drained e Hinv Hd) as (_ & Hall & _).
  pose proof (proj1 (Forall_lookup _ _) Hall i t Hi) as Hterm.
  unfold terminated in Hterm. by rewrite Hpc in Hterm.
Qed.

(** Once shutdown is signalled and nothing accepted is left, the run loop
    closes [doneCh] by itself. *)
Lemma run_loop_closes_done e :
  engine_inv e -> panicked e = false ->
  shutdown_closed e = true ->
  Forall (fun t => terminated t = true) (tasks e) ->
  holds_request e = false ->
  exists ls e',
    Forall (fun l => run_exit_step l = true) ls
    /\ exec ls e = Some e' /\ done_closed e' = true
    /\ tasks e' = tasks e /\ panicked e' = false.
Proof.
  intros [Hst Hpend Hts Hleft Hwait Hdone] Hp Hsd Hall Hhold.
  assert (Hzero : pending e = 0).
  { rewrite Hpend. apply active_count_all_exited.
    eapply Forall_impl; [exact Hall|]. intros t. apply terminated_active. }
  unfold holds_request in Hhold.
  destruct (run e) eqn:Hrun; try done.
  - exists [LRunShutdown; LWaitReturns; LCloseDone]. eexists.
    split; [by repeat constructor|].
    unfold exec, step. rewrite Hp, Hrun, Hsd. simpl.
    rewrite Hp, decide_True by done. simpl. rewrite Hp.
    unfold close_doneCh. simpl. rewrite Hdone. simpl.
    split; [reflexivity|]. simpl. by rewrite Hp.
  - exists [LWaitReturns; LCloseDone]. eexists.
    split; [by repeat constructor|].
    unfold exec, step. rewrite Hp, Hrun, decide_True by done. simpl.
    rewrite Hp. unfold close_doneCh. simpl. rewrite Hdone. simpl.
    split; [reflexivity|]. simpl. by rewrite Hp.
  - exists [LCloseDone]. eexists.
    split; [by repeat constructor|].
    unfold exec, step. rewrite Hp, Hrun. simpl.
    unfold close_doneCh. rewrite Hdone. simpl.
    split; [reflexivity|]. simpl. by rewrite Hp.
  - exists [], e. simpl. rewrite Hdone. done.
Qed.

(** ** The engine: accepted requests can always be brought to their end *)

Lemma finish_task_internal i t :
  Forall (fun l => internal l = true) (finish_task i t).
Proof.
  unfold finish_task. destruct (t_pc t), (t_errCh t); by repeat constructor.
Qed.

Lemma finish_task_progress e i t l ls :
  engine_inv e -> panicked e = false ->
  tasks e !! i = Some t -> finish_task i t = l :: ls ->
  exists e' t1,
    step l e = Some e' /\ tasks e' = <[i := t1]> (tasks e)
    /\ finish_task i t1 = ls /\ panicked e' = false
    /\ run e' = run e /\ shutdown_closed e' = shutdown_closed e.
Proof.
  intros Hinv Hp Hi Hfin. pose proof Hinv as [Hst Hpend Hts Hleft Hwait Hdone].
  pose proof (proj1 (Forall_lookup _ _) Hts i t Hi) as Hok.
  assert (Hpos : active t = true -> 0 < pending e).
  { intros Hact. rewrite Hpend. by apply (active_count_pos _ i t). }
  unfold finish_task in Hfin. unfold task_ok in Hok. unfold active in Hpos.
  destruct (t_pc t) eqn:Hpc, (t_errCh t) eqn:Herr;
    try done; try (by destruct Hok); injection Hfin as <- <-;
    unfold step, step_task; rewrite Hp, Hi; simpl; rewrite ?Hpc, ?Herr; simpl;
    try rewrite decide_True by (by apply Hpos);
    (eexists _, _; split; [reflexivity|]; split; [reflexivity|]); simpl;
    unfold finish_task; simpl; rewrite ?Hpc, ?Herr; done.
Qed.

Lemma finish_task_exec n :
  forall e i t,
    length (finish_task i t) = n ->
    engine_inv e -> panicked e = false -> tasks e !! i = Some t ->
    exists e' t',
      exec (finish_task i t) e = Some e' /\ tasks e' = <[i := t']> (tasks e)
      /\ terminated t' = true /\ panicked e' = false
      /\ run e' = run e /\ shutdown_closed e' = shutdown_closed e.
Proof.
  induction n as [|n IH]; intros e i t Hlen Hinv Hp Hi.
  - apply nil_length_inv in Hlen. rewrite Hlen. exists e, t. simpl.
    rewrite list_insert_id by done. repeat split; try done.
    pose proof (proj1 (Forall_lookup _ _) (inv_tasks e Hinv) i t Hi) as Hok.
    apply (exited_terminated _ _ Hok).
    unfold finish_task in Hlen. unfold active.
    by destruct (t_pc t), (t_errCh t).
  - destruct (finish_task i t) as [|l ls] eqn:Hfin; [done|].
    destruct (finish_task_progress e i t l ls Hinv Hp Hi Hfin)
      as (e1 & t1 & Hstep & Hts1 & Hfin1 & Hp1 & Hrun1 & Hsd1).
    assert (Hi1 : tasks e1 !! i = Some t1).
    { rewrite Hts1. apply list_lookup_insert_eq. by eapply lookup_lt_Some. }
    destruct (IH e1 i t1) as (e' & t' & Hex & Hts' & Hterm & Hp' & Hrun' & Hsd');
      try done.
    { rewrite Hfin1. simpl in Hlen. lia. }
    { by eapply engine_inv_step. }
    exists e', t'. simpl. rewrite Hstep. simpl. rewrite <- Hfin1, Hex.
    rewrite Hts', Hts1, list_insert_insert_eq, Hrun', Hsd'. done.
Qed.

(** All the goroutines, from the oldest to the newest. *)
Lemma finish_all e k :
  engine_inv e -> panicked e = false -> (k <= length (tasks e))%nat ->
  exists ls e',
    Forall (fun l => internal l = true) ls /\ exec ls e = Some e'
    /\ panicked e' = false /\ run e' = run e
    /\ shutdown_closed e' = shutdown_closed e
    /\ length (tasks e') = length (tasks e)
    /\ forall j t, (j < k)%nat -> tasks e' !! j = Some t -> terminated t = true.
Proof.
  intros Hinv Hp. induction k as [|k IH]; intros Hk.
  { exists [], e. repeat split; try done. intros; lia. }
  destruct IH as (ls & e1 & Hint & Hex & Hp1 & Hrun1 & Hsd1 & Hlen1 & Hdone1);
    [lia|].
  destruct (lookup_lt_is_Some_2 (tasks e1) k) as [t Hk1]; [lia|].
  assert (Hinv1 : engine_inv e1) by (by eapply engine_inv_exec).
  destruct (finish_task_exec _ e1 k t eq_refl Hinv1 Hp1 Hk1)
    as (e2 & t' & Hex2 & Hts2 & Hterm & Hp2 & Hrun2 & Hsd2).
  exists (ls ++ finish_task k t), e2.
  split; [apply Forall_app; split; [done|apply finish_task_internal]|].
  rewrite exec_app, Hex. simpl. split; [done|].
  rewrite Hrun2, Hsd2, Hts2, length_insert. repeat split; try done.
  intros j tj Hj Hlook. destruct (decide (j = k)) as [->|Hne].
  - rewrite list_lookup_insert_eq in Hlook by lia. by injection Hlook as <-.
  - rewrite list_lookup_insert_ne in Hlook by done.
    apply (Hdone1 j); [lia|done].
Qed.

Lemma run_exit_internal ls :
  Forall (fun l => run_exit_step l = true) ls ->
  Forall (fun l => internal l = true) ls.
Proof.
  intros Hls. eapply Forall_impl; [exact Hls|]. by intros [].
Qed.

(** After shutdown is signalled, the engine and the retriever can always
    bring the engine to the close of [doneCh]. *)
Lemma shutdown_leads_to_done e :
  engine_inv e -> panicked e = false -> shutdown_closed e = true ->
  exists ls e',
    Forall (fun l => internal l = true) ls
    /\ exec ls e = Some e' /\ done_closed e' = true.
Proof.
  intros Hinv Hp Hsd.
  assert (exists ls0 e0,
    Forall (fun l => internal l = true) ls0 /\ exec ls0 e = Some e0
    /\ panicked e0 = false /\ shutdown_closed e0 = true
    /\ holds_request e0 = false) as (ls0 & e0 & Hint0 & Hex0 & Hp0 & Hsd0 & Hh0).
  { destruct (holds_request e) eqn:Hh.
    - unfold holds_request in Hh. destruct (run e) eqn:Hrun; try done.
      exists [LDispatch]. eexists. split; [by repeat constructor|].
      unfold exec, step. rewrite Hp, Hrun. simpl. done.
    - by exists [], e. }
  assert (Hinv0 : engine_inv e0) by (by eapply engine_inv_exec).
  destruct (finish_all e0 (length (tasks e0)) Hinv0 Hp0 ltac:(lia))
    as (ls1 & e1 & Hint1 & Hex1 & Hp1 & Hrun1 & Hsd1 & Hlen1 & Hall1).
  assert (Hinv1 : engine_inv e1) by (by eapply engine_inv_exec).
  destruct (run_loop_closes_done e1 Hinv1 Hp1) as (ls2 & e2 & Hint2 & Hex2 & Hd2 & _).
  { by rewrite Hsd1. }
  { apply Forall_lookup. intros j t Hj. apply (Hall1 j); [|done].
    rewrite <- Hlen1. by eapply lookup_lt_Some. }
  { unfold holds_request in *. by rewrite Hrun1. }
  exists (ls0 ++ ls1 ++ ls2), e2. split.
  - repeat (apply Forall_app; split); try done. by apply run_exit_internal.
  - rewrite exec_app, Hex0. simpl. rewrite exec_app, Hex1. simpl. done.
Qed.

(** The select of [request] cannot stay blocked: from every state of a
    started engine the run loop gets, by its own steps, to a state in which
    one of the two cases is ready. *)
Lemma request_select_can_proceed e :
  engine_inv e -> panicked e = false ->
  exists ls e',
    Forall (fun l => internal l = true) ls /\ exec ls e = Some e'
    /\ (select_ready e' SelSend = true \/ select_ready e' SelShutdown = true).
Proof.
  intros [Hst Hpend Hts Hleft Hwait Hdone] Hp.
  destruct (run e) eqn:Hrun; try done.
  - exists [], e. simpl. rewrite Hrun. auto.
  - exists [LDispatch]. eexists. split; [by repeat constructor|].
    unfold exec, step. rewrite Hp, Hrun. simpl. auto.
  - exists [], e. simpl. rewrite Hleft by done. auto.
  - exists [], e. simpl. rewrite Hleft by done. auto.
  - exists [], e. simpl. rewrite Hleft by done. auto.
Qed.

(** Two calls of [Shutdown] that overlap can both take the default case of
    the select; the second [close] then panics. *)
Lemma overlapping_Shutdown_calls_panic :
  exists e,
    exec [LShutdownSelect; LShutdownSelect; LShutdownClose; LShutdownClose] e0
    = Some e
    /\ panicked e = true.
Proof. eexists. split; reflexivity. Qed.

(** ** The engine: what the retriever is asked for *)

Lemma dispatched_insert e i t t' :
  tasks e !! i = Some t -> t_req t' = t_req t ->
  t_req <$> <[i := t']> (tasks e) = dispatched e.
Proof.
  intros Hi Hreq. unfold dispatched. rewrite list_fmap_insert.
  apply list_insert_id. by rewrite list_lookup_fmap, Hi, Hreq.
Qed.

(** A request is with the retriever or in the hands of the run loop only if
    it was so before the step, or the step is its receipt. *)
Lemma step_dispatched l e e' req :
  step l e = Some e' ->
  req ∈ dispatched e' \/ run e' = RunDispatch req ->
  req ∈ dispatched e \/ run e = RunDispatch req \/ l = LRecv req.
Proof.
  intros Hstep. unfold step in Hstep. destruct (panicked e); [done|].
  destruct l;
    try (apply step_task_Some in Hstep as (t & t' & g & Hi & Hf & ->);
         destruct (t_pc t) eqn:Hpc; try done;
         destruct (t_errCh t) eqn:Herr; try done;
         injection Hf as <- <-; unfold dispatched; simpl;
         try (destruct (decide _)); simpl;
         rewrite (dispatched_insert e i t) by done; tauto).
  - destruct (run e); try done. injection Hstep as <-. simpl.
    unfold dispatched. simpl. intros [?|[= ->]]; auto.
  - destruct (run e); try done. destruct (shutdown_closed e); [|done].
    injection Hstep as <-. unfold dispatched. simpl. intros [?|?]; auto; done.
  - destruct (run e) eqn:Hrun; try done. injection Hstep as <-.
    unfold dispatched. simpl. rewrite fmap_app. simpl.
    intros [Hin|?]; [|done].
    apply elem_of_app in Hin as [?|Hin]; [by left|].
    apply list_elem_of_singleton in Hin as ->. auto.
  - destruct (run e); try done. destruct (decide _); [|done].
    injection Hstep as <-. unfold dispatched. simpl. intros [?|?]; auto; done.
  - destruct (run e); try done. injection Hstep as <-.
    unfold dispatched, close_doneCh. destruct (done_closed e); simpl;
      intros [?|?]; auto; done.
  - destruct (shutdown_closed e); [|done].
    apply step_task_Some in Hstep as (t & t' & g & Hi & Hf & ->).
    destruct (t_pc t) eqn:Hpc; try done. injection Hf as <- <-.
    unfold dispatched. simpl. rewrite (dispatched_insert e i t) by done. tauto.
  - destruct (shutdown_closed e); injection Hstep as <-; simpl; tauto.
  - destruct (closers e); [done|]. injection Hstep as <-.
    unfold dispatched, close_shutdownCh. simpl.
    destruct (shutdown_closed e); simpl; tauto.
Qed.

Lemma exec_dispatched ls :
  forall e e' req,
    exec ls e = Some e' ->
    req ∈ dispatched e' \/ run e' = RunDispatch req ->
    req ∈ dispatched e \/ run e = RunDispatch req \/ LRecv req ∈ ls.
Proof.
  induction ls as [|l ls IH]; intros e e' req Hex Hreq; simpl in Hex.
  - injection Hex as <-. tauto.
  - destruct (step l e) as [e1|] eqn:Hstep; simpl in Hex; [|done].
    destruct (IH e1 e' req Hex Hreq) as [H1|[H1|H1]].
    + destruct (step_dispatched l e e1 req Hstep (or_introl H1))
        as [?|[?| ->]]; auto. right. right. left.
    + destruct (step_dispatched l e e1 req Hstep (or_intror H1))
        as [?|[?| ->]]; auto. right. right. left.
    + right. right. by right.
Qed.

(** ** More on fan-outs *)

(** When no child is skipped and every call is admitted, the priorities of
    the requests are those of the positions [0], [1], ... in turn. *)
Lemma fanout_requests_all cfg kmd wg sels cs :
  forall prio,
    (forall i c, cs !! i = Some c ->
                 is_Some c.2 /\ admitted cfg c.1 (sels i) = true) ->
    priority <$> fanout_requests cfg kmd wg prio sels cs
    = prio <$> seq 0 (length cs).
Proof.
  unfold fanout_requests. revert sels.
  induction cs as [|c cs IH]; intros sels prio Hall; [done|].
  rewrite imap_cons. simpl.
  destruct (Hall 0%nat c eq_refl) as [[blk Hblk] Hadm].
  unfold child_request at 1. rewrite Hblk. simpl. rewrite Hadm. simpl.
  f_equal.
  change (priority <$> omap id
            (imap (child_request cfg kmd wg (prio ∘ S) (sels ∘ S)) cs)
          = prio <$> seq 1 (length cs)).
  rewrite (IH (sels ∘ S) (prio ∘ S)).
  - rewrite <- fmap_S_seq, <- list_fmap_compose. done.
  - intros i c' Hi. apply (Hall (S i) c' Hi).
Qed.

Section ChildrenFacts.
Context `{odp : OnDemandPriority} `{lister : DirEntryLister}
  `{sorter : dirEntriesBySizeAsc}.

Lemma sortedEntries_sorted b : Sorted size_le (sortedEntries b).
Proof. apply sort_Sort_sorted. Qed.

Lemma sortedEntries_perm b : sortedEntries b ≡ₚ named_entries (Children b).
Proof.
  unfold sortedEntries. rewrite sort_Sort_perm.
  apply dirEntryMapToDirEntries_perm.
Qed.

Lemma sortedEntries_empty b : Children b = ∅ -> sortedEntries b = [].
Proof.
  intros Hemp. apply Permutation_nil_r. rewrite sortedEntries_perm, Hemp.
  unfold named_entries. by rewrite map_to_list_empty.
Qed.

Lemma startingPriority_in_range cfg b kmd :
  GoInt.in_range (startingPriority cfg b kmd).
Proof.
  unfold startingPriority. destruct (IsSyncedTlf cfg (TlfID kmd)).
  - apply onDemand_pred_in_range.
  - unfold basePriority, GoInt.in_range, GoInt.min_int, GoInt.max_int.
    destruct b as [fb|db|]; [|destruct (dIsInd db)|];
      unfold fileIndirectBlockPrefetchPriority, dirEntryPrefetchPriority; lia.
Qed.

(** Within the range of [int], the priorities a fan-out computes are the
    differences [startingPriority - i]. *)
Lemma fanout_requests_exact cfg b kmd wg sels cs :
  GoInt.min_int <= startingPriority cfg b kmd - Z.of_nat (length cs) ->
  fanout_requests cfg kmd wg (go_prio (startingPriority cfg b kmd)) sels cs
  = fanout_requests cfg kmd wg
      (fun i => startingPriority cfg b kmd - Z.of_nat i) sels cs.
Proof.
  intros Hmin. apply fanout_requests_ext. intros i Hi.
  apply (go_prio_exact _ (length cs)); [|done|done].
  apply startingPriority_in_range.
Qed.

End ChildrenFacts.

(** * Properties of the prefetcher *)

Section Properties.
Context `{odp : OnDemandPriority} `{lister : DirEntryLister}
  `{sorter : dirEntriesBySizeAsc}.

(** C6. In a folder that the configuration marks as synced,
    [calculatePriority] returns [defaultOnDemandRequestPriority - 1]
    whatever base priority it is given; in a folder that is not synced it
    returns the base priority unchanged. *)
Theorem calculatePriority_synced_or_base (p : blockPrefetcher)
    (cfg : prefetcherConfig) (tlf : tlfID) (w : world) :
  config p = Some cfg ->
  (IsSyncedTlf cfg tlf = true ->
   forall basePriority,
     calculatePriority p basePriority tlf w
     = Some (defaultOnDemandRequestPriority - 1, w))
  /\ (IsSyncedTlf cfg tlf = false ->
      forall basePriority,
        calculatePriority p basePriority tlf w = Some (basePriority, w)).
Proof.
  intros Hcfg. split; intros Hsync basePriority;
    rewrite (calculatePriority_eq p cfg Hcfg), Hsync; reflexivity.
Qed.

(** C10. [request] looks in the cache before it checks the data version:
    for a pointer that is in the cache it returns nil, whatever
    [checkDataVersion] would say, and it returns the error of the
    data-version check only for a pointer that is not in the cache. *)
Theorem request_checks_cache_before_version (p : blockPrefetcher)
    (cfg : prefetcherConfig) (priority : Z) (kmd : KeyMetadata)
    (ptr : BlockPointer) (block : Block) (entryName : string) (wg : wgref)
    (sel : select_outcome) (w : world) :
  config p = Some cfg ->
  (is_Some (BlockCache cfg !! ptr) ->
   request p priority kmd ptr block entryName wg sel w = Some (None, w))
  /\ (forall e w',
        request p priority kmd ptr block entryName wg sel w
        = Some (Some (ErrDataVersion e), w') ->
        BlockCache cfg !! ptr = None /\ checkDataVersion cfg ptr = Some e).
Proof.
  intros Hcfg. split.
  - by apply request_cache_hit.
  - intros e w' Hret.
    destruct (BlockCache cfg !! ptr) as [blk|] eqn:Hget.
    { rewrite (request_cache_hit p cfg Hcfg) in Hret by (by rewrite Hget).
      done. }
    split; [done|].
    destruct (checkDataVersion cfg ptr) as [e0|] eqn:Hver.
    { rewrite (request_bad_version p cfg Hcfg _ _ _ _ _ _ _ _ e0) in Hret
        by done. by injection Hret as -> _. }
    destruct sel.
    + rewrite (request_send p cfg Hcfg) in Hret by done. done.
    + rewrite (request_shutdown p cfg Hcfg) in Hret by done. done.
Qed.

(** C3. A pointer that is in the block cache is never the subject of a
    prefetch: [request] returns nil for it and leaves everything as it was,
    so nothing goes to the run loop; no request that
    [PrefetchAfterBlockRetrieved] or [PrefetchBlock] hands to the run loop
    names it; and the retriever is only ever asked for requests that the
    run loop has received. *)
Theorem cached_pointer_never_dispatched (p : blockPrefetcher)
    (cfg : prefetcherConfig) (cached : BlockPointer) :
  config p = Some cfg ->
  is_Some (BlockCache cfg !! cached) ->
  (forall priority kmd block entryName wg sel w,
     request p priority kmd cached block entryName wg sel w = Some (None, w))
  /\ (forall b parent kmd sels w,
        exists ch w',
          PrefetchAfterBlockRetrieved p b parent kmd sels w = Some (ch, w')
          /\ forall r, r ∈ sent w' -> ptr r = cached -> r ∈ sent w)
  /\ (forall block kmd priority sel w,
        exists w',
          PrefetchBlock p block cached kmd priority sel w = Some (None, w')
          /\ sent w' = sent w)
  /\ (forall retriever ls e req,
        exec ls (newBlockPrefetcher retriever (Some cfg)).2 = Some e ->
        req ∈ dispatched e -> LRecv req ∈ ls).
Proof.
  intros Hcfg Hhit. split; [|split; [|split]].
  - intros. by apply (request_cache_hit p cfg Hcfg).
  - intros b ptr0 kmd sels w. destruct (fans_out b) eqn:Hfan.
    + destruct (PrefetchAfterBlockRetrieved_fanout p cfg Hcfg kmd sels b ptr0 w Hfan)
        as (w' & Hrun & _ & _ & _ & Hsent).
      exists (length (chans w)), w'. split; [done|].
      intros r Hr Hptr. rewrite Hsent in Hr.
      apply elem_of_app in Hr as [Hr|Hr]; [done|].
      apply elem_of_fanout_requests in Hr as (i & c & blk & _ & _ & Hadm & ->).
      apply admitted_true in Hadm as (Hmiss & _). simpl in Hptr. subst cached.
      rewrite Hmiss in Hhit. by destruct Hhit.
    + rewrite (PrefetchAfterBlockRetrieved_leaf p kmd sels b ptr0 w Hfan).
      eexists _, _. split; [reflexivity|]. simpl. auto.
  - intros block kmd priority sel w. unfold PrefetchBlock.
    rewrite wg_new_Add by lia.
    rewrite (request_cache_hit p cfg Hcfg) by done. by eexists.
  - intros retriever ls e req Hex Hreq.
    destruct (exec_dispatched ls _ e req Hex (or_introl Hreq)) as [H|[H|H]];
      [|by destruct retriever|done].
    exfalso. destruct retriever; unfold dispatched in H; simpl in H;
      by apply elem_of_nil in H.
Qed.

(** C4. For a direct directory block the entries are first put in
    ascending order of size, and the priorities are given out along that
    order: the entry at position [i] gets [startingPriority - i] (computed
    on [int]). The requests that go to the run loop are those of the
    admitted entries of type [Dir], [File] or [Exec], in that order, a
    [Dir] entry with an empty [DirBlock] and a [File] or [Exec] entry with
    an empty [FileBlock]. *)
Theorem direct_dir_fanout_sorted_by_size (p : blockPrefetcher)
    (cfg : prefetcherConfig) (b : DirBlock) (ptr : BlockPointer)
    (kmd : KeyMetadata) (sels : nat -> select_outcome) (w : world) :
  config p = Some cfg ->
  dIsInd b = false ->
  let es := sortedEntries b in
  let sp := startingPriority cfg (BDirBlock b) kmd in
  let newwg := length (wgs w) in
  Sorted size_le es
  /\ es ≡ₚ named_entries (Children b)
  /\ exists w',
       PrefetchAfterBlockRetrieved p (BDirBlock b) ptr kmd sels w
       = Some (length (chans w), w')
       /\ sent w' = sent w
            ++ fanout_requests cfg kmd newwg (go_prio sp) sels
                 ((fun e => (entryPointer e, entryBlock (Type_ e))) <$> es)
       /\ forall i e,
            es !! i = Some e ->
            admitted cfg (entryPointer e) (sels i) = true ->
            match Type_ e with
            | Dir =>
              mkPrefetchRequest (go_prio sp i) kmd (entryPointer e)
                (BDirBlock emptyDirBlock) newwg ∈ sent w'
            | File | Exec =>
              mkPrefetchRequest (go_prio sp i) kmd (entryPointer e)
                (BFileBlock emptyFileBlock) newwg ∈ sent w'
            | _ => True
            end.
Proof.
  intros Hcfg Hind es sp newwg.
  split; [apply sortedEntries_sorted|]. split; [apply sortedEntries_perm|].
  destruct (PrefetchAfterBlockRetrieved_fanout p cfg Hcfg kmd sels
              (BDirBlock b) ptr w eq_refl) as (w' & Hrun & _ & _ & _ & Hsent).
  simpl children in Hsent. rewrite Hind in Hsent.
  exists w'. split; [done|]. split; [done|].
  intros i e Hi Hadm.
  assert (Hin : forall blk, entryBlock (Type_ e) = Some blk ->
            mkPrefetchRequest (go_prio sp i) kmd (entryPointer e) blk newwg
            ∈ sent w').
  { intros blk Hblk. rewrite Hsent. apply elem_of_app. right.
    apply elem_of_fanout_requests.
    exists i, (entryPointer e, entryBlock (Type_ e)), blk.
    rewrite list_lookup_fmap. fold es. rewrite Hi. done. }
  destruct (Type_ e); try done; by apply Hin.
Qed.

(** C5, amended. In the fan-out of a block the child at position [i] of the
    list the policy goes through gets priority [startingPriority - i],
    where the list of a direct directory block holds every entry, skipped
    ones included, and [startingPriority] is the base priority, or
    [defaultOnDemandRequestPriority - 1] in a synced folder. The requests
    that go to the run loop are those of the children that are not skipped
    and whose call of [request] is admitted (pointer not cached, data
    version accepted, send taken), each with the priority of its position,
    in the order of the list, so the priorities fall strictly; they are
    [startingPriority], [startingPriority - 1], ... in turn when no child
    is skipped and every call is admitted. The base priority is -100 for
    indirect file blocks and indirect directory blocks alike. *)
Theorem fanout_priorities_by_position (p : blockPrefetcher)
    (cfg : prefetcherConfig) (b : Block) (ptr : BlockPointer)
    (kmd : KeyMetadata) (sels : nat -> select_outcome) (w : world) :
  config p = Some cfg ->
  fans_out b = true ->
  let sp := startingPriority cfg b kmd in
  let reqs := fanout_requests cfg kmd (length (wgs w))
                (fun i => sp - Z.of_nat i) sels (children b) in
  GoInt.min_int <= sp - Z.of_nat (length (children b)) ->
  (exists w',
     PrefetchAfterBlockRetrieved p b ptr kmd sels w = Some (length (chans w), w')
     /\ sent w' = sent w ++ reqs)
  /\ StronglySorted (fun r1 r2 => priority r2 < priority r1) reqs
  /\ ((forall i c, children b !! i = Some c ->
                   is_Some c.2 /\ admitted cfg c.1 (sels i) = true) ->
      priority <$> reqs
      = (fun i => sp - Z.of_nat i) <$> seq 0 (length (children b)))
  /\ (forall fb, basePriority (BFileBlock fb) = -100)
  /\ (forall db, dIsInd db = true -> basePriority (BDirBlock db) = -100)
  /\ (forall r,
        r ∈ reqs <->
        exists i c blk,
          children b !! i = Some c /\ c.2 = Some blk
          /\ admitted cfg c.1 (sels i) = true
          /\ r = mkPrefetchRequest (sp - Z.of_nat i) kmd c.1 blk
                  (length (wgs w)))
  /\ (forall db,
        b = BDirBlock db -> dIsInd db = false ->
        children b
        = (fun e => (entryPointer e, entryBlock (Type_ e))) <$> sortedEntries db
        /\ Sorted size_le (sortedEntries db)
        /\ sortedEntries db ≡ₚ named_entries (Children db)).
Proof.
  intros Hcfg Hfan sp reqs Hmin.
  split; [|split; [|split; [|split; [|split; [|split]]]]].
  - destruct (PrefetchAfterBlockRetrieved_fanout p cfg Hcfg kmd sels b ptr w Hfan)
      as (w' & Hrun & _ & _ & _ & Hsent).
    rewrite fanout_requests_exact in Hsent by done.
    by exists w'.
  - apply fanout_requests_decreasing. intros i j Hij. lia.
  - intros Hall. by apply fanout_requests_all.
  - done.
  - intros db Hind. simpl. by rewrite Hind.
  - intros r. apply elem_of_fanout_requests.
  - intros db -> Hind. simpl. rewrite Hind.
    split; [done|]. split; [apply sortedEntries_sorted|apply sortedEntries_perm].
Qed.

(** C8, amended. For a direct file block and for a block of another
    variant, [PrefetchAfterBlockRetrieved] issues no request and returns a
    channel that is already closed. For a direct directory block without
    children it issues no request either, but the channel it returns is
    still open: it has started a goroutine that waits on a wait group that
    holds zero, and that goroutine closes the channel without having to
    wait for any retrieval. *)
Theorem childless_block_done_signal (p : blockPrefetcher)
    (cfg : prefetcherConfig) (b : Block) (ptr : BlockPointer)
    (kmd : KeyMetadata) (sels : nat -> select_outcome) (w : world) :
  config p = Some cfg ->
  let ch := length (chans w) in
  let wg := length (wgs w) in
  (fans_out b = false ->
   exists w',
     PrefetchAfterBlockRetrieved p b ptr kmd sels w = Some (ch, w')
     /\ sent w' = sent w /\ chans w' !! ch = Some true
     /\ waiters w' = waiters w)
  /\ (forall db,
        b = BDirBlock db -> dIsInd db = false -> Children db = ∅ ->
        exists w',
          PrefetchAfterBlockRetrieved p b ptr kmd sels w = Some (ch, w')
          /\ sent w' = sent w /\ chans w' !! ch = Some false
          /\ waiters w' = waiters w ++ [(wg, ch)]
          /\ wgs w' !! wg = Some 0
          /\ exists w'',
               waiter_run (wg, ch) w' = Some w''
               /\ chans w'' !! ch = Some true /\ sent w'' = sent w).
Proof.
  intros Hcfg ch wg. split.
  - intros Hfan.
    rewrite (PrefetchAfterBlockRetrieved_leaf p kmd sels b ptr w Hfan).
    eexists. split; [reflexivity|]. simpl. subst ch.
    by rewrite lookup_at_end.
  - intros db -> Hind Hemp. subst ch wg.
    destruct (PrefetchAfterBlockRetrieved_fanout p cfg Hcfg kmd sels
                (BDirBlock db) ptr w eq_refl)
      as (w' & Hrun & Hwgs & Hch & Hwt & Hsent).
    simpl children in *. rewrite Hind, (sortedEntries_empty db Hemp) in *.
    simpl in Hwgs, Hsent. rewrite app_nil_r in Hsent.
    exists w'. split; [done|]. split; [done|].
    split; [rewrite Hch; apply lookup_at_end|]. split; [done|].
    split; [rewrite Hwgs; apply lookup_at_end|].
    unfold waiter_run, close_chan. simpl.
    rewrite Hwgs, lookup_at_end, Hch, lookup_at_end. simpl.
    eexists. split; [reflexivity|]. simpl.
    rewrite Hch, insert_at_end, lookup_at_end. done.
Qed.

End Properties.

Lemma calculatePriority_synced_or_base_witness :
  config p0 = Some cfg0
  /\ calculatePriority (odp := onDemand100) p0 (-100) "synced" w0
     = Some (99, w0)
  /\ calculatePriority (odp := onDemand100) p0 (-100) "private" w0
     = Some (-100, w0).
Proof.
  split; [reflexivity|].
  pose proof (calculatePriority_synced_or_base (odp := onDemand100)
                p0 cfg0 "synced" w0 eq_refl) as [Hs _].
  pose proof (calculatePriority_synced_or_base (odp := onDemand100)
                p0 cfg0 "private" w0 eq_refl) as [_ Hp].
  split; [apply (Hs eq_refl)|apply (Hp eq_refl)].
Defined.

Lemma request_checks_cache_before_version_witness :
  config p0 = Some cfg0
  /\ is_Some (BlockCache cfg0 !! ptrCachedNew)
  /\ is_Some (checkDataVersion cfg0 ptrCachedNew)
  /\ request p0 0 kmd0 ptrCachedNew BCommonBlock EmptyString 0%nat SelSend w0
     = Some (None, w0).
Proof.
  split; [reflexivity|].
  assert (Hhit : is_Some (BlockCache cfg0 !! ptrCachedNew))
    by (exists BCommonBlock; reflexivity).
  split; [exact Hhit|].
  split; [eexists; reflexivity|].
  exact (proj1 (request_checks_cache_before_version p0 cfg0 0 kmd0
                  ptrCachedNew BCommonBlock EmptyString 0%nat SelSend w0 eq_refl) Hhit).
Defined.

Lemma cached_pointer_never_dispatched_witness :
  config p0 = Some cfg0
  /\ is_Some (BlockCache cfg0 !! ptrA)
  /\ request p0 (-100) kmd0 ptrA (BFileBlock emptyFileBlock) EmptyString 0%nat
       SelSend w0 = Some (None, w0).
Proof.
  assert (Hhit : is_Some (BlockCache cfg0 !! ptrA))
    by (exists BCommonBlock; reflexivity).
  split; [reflexivity|]. split; [exact Hhit|].
  apply (proj1 (cached_pointer_never_dispatched (odp := onDemand100)
                  (lister := listInMapOrder) (sorter := mergeSortBySize)
                  p0 cfg0 ptrA eq_refl Hhit)).
Defined.

Lemma direct_dir_fanout_sorted_by_size_witness :
  config p0 = Some cfg0
  /\ dIsInd dirThree = false
  /\ Sorted size_le (sortedEntries (lister := listInMapOrder)
                       (sorter := mergeSortBySize) dirThree)
  /\ Size <$> sortedEntries (lister := listInMapOrder)
                (sorter := mergeSortBySize) dirThree = [20; 60; 100]%N.
Proof.
  split; [reflexivity|]. split; [reflexivity|].
  split; [|reflexivity].
  apply (proj1 (direct_dir_fanout_sorted_by_size (odp := onDemand100)
                  (lister := listInMapOrder) (sorter := mergeSortBySize)
                  p0 cfg0 dirThree ptrA kmd0 allSend w0 eq_refl eq_refl)).
Defined.

(** C5 as stated fails on a directory whose smallest entry is a symbolic
    link: the link takes the position with the base priority and is
    skipped, so the first request of the fan-out does not have the base
    priority -200 but -201. *)
Lemma first_request_after_symlink_below_base :
  exists ch w' r,
    PrefetchAfterBlockRetrieved (odp := onDemand100)
      (lister := listInMapOrder) (sorter := mergeSortBySize)
      p0 (BDirBlock dirWithSymlink) ptrA kmd0 allSend w0 = Some (ch, w')
    /\ sent w' !! 0%nat = Some r
    /\ priority r = -201
    /\ priority r <> dirEntryPrefetchPriority - 0.
Proof.
  eexists _, _, _. split; [vm_compute; reflexivity|].
  split; [reflexivity|]. split; [reflexivity|]. by vm_compute.
Qed.

Lemma fanout_priorities_by_position_witness :
  config p0 = Some cfg0
  /\ fans_out (BFileBlock fileTwo) = true
  /\ GoInt.min_int
     <= startingPriority (odp := onDemand100) cfg0 (BFileBlock fileTwo) kmd0
        - Z.of_nat (length (children (lister := listInMapOrder)
                              (sorter := mergeSortBySize) (BFileBlock fileTwo)))
  /\ exists w',
       PrefetchAfterBlockRetrieved (odp := onDemand100)
         (lister := listInMapOrder) (sorter := mergeSortBySize)
         p0 (BFileBlock fileTwo) ptrA kmd0 allSend w0 = Some (0%nat, w')
       /\ sent w' = sent w0
            ++ fanout_requests cfg0 kmd0 0%nat
                 (fun i => -100 - Z.of_nat i) allSend
                 [(ptrB, Some (BFileBlock emptyFileBlock));
                  (ptrD, Some (BFileBlock emptyFileBlock))].
Proof.
  assert (Hmin : GoInt.min_int
     <= startingPriority (odp := onDemand100) cfg0 (BFileBlock fileTwo) kmd0
        - Z.of_nat (length (children (lister := listInMapOrder)
                              (sorter := mergeSortBySize) (BFileBlock fileTwo))))
    by (by vm_compute).
  split; [reflexivity|]. split; [reflexivity|]. split; [exact Hmin|].
  apply (proj1 (fanout_priorities_by_position (odp := onDemand100)
                  (lister := listInMapOrder) (sorter := mergeSortBySize)
                  p0 cfg0 (BFileBlock fileTwo) ptrA kmd0 allSend w0
                  eq_refl eq_refl Hmin)).
Defined.

(** C8 as stated fails on an empty direct directory block: the channel the
    call returns is open at the return. *)
Lemma empty_dir_done_open_at_return :
  exists ch w',
    PrefetchAfterBlockRetrieved (odp := onDemand100)
      (lister := listInMapOrder) (sorter := mergeSortBySize)
      p0 (BDirBlock emptyDirBlock) ptrA kmd0 allSend w0 = Some (ch, w')
    /\ chans w' !! ch = Some false
    /\ chans w' !! ch <> Some true.
Proof.
  eexists _, _. split; [vm_compute; reflexivity|].
  split; [reflexivity|]. by vm_compute.
Qed.

Lemma childless_block_done_signal_witness :
  config p0 = Some cfg0
  /\ fans_out BCommonBlock = false
  /\ exists w',
       PrefetchAfterBlockRetrieved (odp := onDemand100)
         (lister := listInMapOrder) (sorter := mergeSortBySize)
         p0 BCommonBlock ptrA kmd0 allSend w0 = Some (0%nat, w')
       /\ sent w' = sent w0 /\ chans w' !! 0%nat = Some true
       /\ waiters w' = waiters w0.
Proof.
  split; [reflexivity|]. split; [reflexivity|].
  apply (proj1 (childless_block_done_signal (odp := onDemand100)
                  (lister := listInMapOrder) (sorter := mergeSortBySize)
                  p0 cfg0 BCommonBlock ptrA kmd0 allSend w0 eq_refl)
           eq_refl).
Defined.

(** C1. The three returns of [request] that do not hand the request over,
    run on a wait group that holds one unit: a cached pointer, a rejected
    data version, and a shutdown. Each leaves the unit in place. So does
    the fan-out of an indirect file block whose one child is cached: it
    sends nothing, its wait group stays at one, and the goroutine that is
    to close the returned channel cannot leave [wg.Wait()]. *)
Theorem request_returns_leave_counter :
  request p0 (-100) kmd0 ptrA (BFileBlock emptyFileBlock) EmptyString 0%nat SelSend wOne
  = Some (None, wOne)
  /\ request p0 (-100) kmd0 ptrNew (BFileBlock emptyFileBlock) EmptyString 0%nat
       SelSend wOne
     = Some (Some (ErrDataVersion (mkDataVersionError 2)), wOne)
  /\ request p0 (-100) kmd0 ptrB (BFileBlock emptyFileBlock) EmptyString 0%nat
       SelShutdown wOne
     = Some (Some (ErrShutdownEOF "B"), wOne)
  /\ exists w',
       PrefetchAfterBlockRetrieved (odp := onDemand100)
         (lister := listInMapOrder) (sorter := mergeSortBySize)
         p0 (BFileBlock fileOneCached) ptrB kmd0 allSend w0 = Some (0%nat, w')
       /\ sent w' = [] /\ wgs w' = [1] /\ chans w' = [false]
       /\ waiters w' = [(0%nat, 0%nat)]
       /\ waiter_run (0%nat, 0%nat) w' = None.
Proof.
  split; [reflexivity|]. split; [reflexivity|]. split; [reflexivity|].
  eexists. split; [vm_compute; reflexivity|]. done.
Qed.

(** ** Shutdown *)

Lemma Shutdown_closes p e : shutdown_closed (Shutdown p e).2 = true.
Proof.
  unfold Shutdown, close_shutdownCh. simpl.
  destruct (shutdown_closed e) eqn:Hsd; simpl; by rewrite ?Hsd.
Qed.

Lemma Shutdown_closed_noop p e :
  shutdown_closed e = true -> (Shutdown p e).2 = e.
Proof. unfold Shutdown. simpl. by intros ->. Qed.

(** A call of [Shutdown] that no other call overlaps is the two steps of
    the engine, or the one when the channel is closed already. *)
Lemma Shutdown_as_steps p e :
  panicked e = false ->
  exec (if shutdown_closed e then [LShutdownSelect]
        else [LShutdownSelect; LShutdownClose]) e
  = Some (Shutdown p e).2.
Proof.
  intros Hp. unfold Shutdown. simpl.
  destruct (shutdown_closed e) eqn:Hsd; simpl; unfold step; rewrite Hp, Hsd.
  - done.
  - simpl. rewrite Hp. unfold close_shutdownCh. simpl. rewrite Hsd.
    by destruct e.
Qed.

(** C7. [Shutdown] is idempotent: after any number of calls, one after the
    other, the engine is as the first call left it; the first call leaves
    [shutdownCh] closed, a call that finds it closed changes nothing, no
    call panics or touches [doneCh], and every call returns [p.doneCh]. *)
Theorem Shutdown_idempotent (p : blockPrefetcher) (e : engine) (n : nat) :
  let again := fun e => (Shutdown p e).2 in
  Nat.iter (S n) again e = again e
  /\ shutdown_closed (again e) = true
  /\ (forall e1, shutdown_closed e1 = true -> again e1 = e1)
  /\ panicked (again e) = panicked e
  /\ done_closed (again e) = done_closed e
  /\ (Shutdown p e).1 = doneCh p
  /\ (Shutdown p (Nat.iter n again e)).1 = (Shutdown p e).1.
Proof.
  intros again.
  assert (Hidem : forall e1, again (again e1) = again e1).
  { intros e1. apply Shutdown_closed_noop, Shutdown_closes. }
  split; [|split; [|split; [|split; [|split; [|split]]]]].
  - induction n as [|n IH]; [done|].
    change (again (Nat.iter (S n) again e) = again e). by rewrite IH.
  - apply Shutdown_closes.
  - intros e1. apply Shutdown_closed_noop.
  - unfold again, Shutdown, close_shutdownCh. simpl.
    destruct (shutdown_closed e) eqn:Hsd; simpl; by rewrite ?Hsd.
  - unfold again, Shutdown, close_shutdownCh. simpl.
    destruct (shutdown_closed e) eqn:Hsd; simpl; by rewrite ?Hsd.
  - done.
  - done.
Qed.

(** ** A prefetcher without a retriever *)

(** C9 as stated fails for a pointer that is not cached and whose data
    version is rejected: with a nil retriever too, [request] returns the
    error of the data-version check, not the shutdown error. *)
Lemma nil_retriever_version_error_first :
  BlockCache cfg0 !! ptrNew = None
  /\ select_ready eNil SelShutdown = true
  /\ select_ready eNil SelSend = false
  /\ request pNil (-100) kmd0 ptrNew (BFileBlock emptyFileBlock) EmptyString 0%nat
       SelShutdown w0
     = Some (Some (ErrDataVersion (mkDataVersionError 2)), w0)
  /\ ErrDataVersion (mkDataVersionError 2) <> ErrShutdownEOF (ID ptrNew).
Proof. repeat split; done. Qed.

(** C9, amended. A prefetcher made with a nil retriever is shut down from
    the start: [doneCh] and [shutdownCh] are closed, and whatever happens
    next the run loop is not running, the retriever has been asked for
    nothing, and the select of [request] can only take the shutdown case.
    So every call of [request] or [PrefetchBlock] for a pointer that is not
    cached and whose data version passes the check returns the shutdown
    error; for a pointer that is not cached and whose data version is
    rejected it returns the error of the data-version check instead. *)
Theorem nil_retriever_is_shut_down (config : option prefetcherConfig)
    (ls : list label) (e : engine) :
  let pe := newBlockPrefetcher false config in
  exec ls pe.2 = Some e ->
  done_closed pe.2 = true
  /\ done_closed e = true /\ shutdown_closed e = true
  /\ run e = RunNotStarted /\ dispatched e = []
  /\ select_ready e SelSend = false /\ select_ready e SelShutdown = true
  /\ (forall cfg priority kmd ptr block entryName wg sel w,
        config = Some cfg ->
        select_ready e sel = true ->
        BlockCache cfg !! ptr = None ->
        checkDataVersion cfg ptr = None ->
        request pe.1 priority kmd ptr block entryName wg sel w
        = Some (Some (ErrShutdownEOF (ID ptr)), w)
        /\ PrefetchBlock pe.1 block ptr kmd priority sel w
           = Some (Some (ErrShutdownEOF (ID ptr)),
                   set_wgs (fun l => l ++ [1]) w))
  /\ (forall cfg priority kmd ptr block entryName wg sel w err,
        config = Some cfg ->
        BlockCache cfg !! ptr = None ->
        checkDataVersion cfg ptr = Some err ->
        request pe.1 priority kmd ptr block entryName wg sel w
        = Some (Some (ErrDataVersion err), w)
        /\ PrefetchBlock pe.1 block ptr kmd priority sel w
           = Some (Some (ErrDataVersion err),
                   set_wgs (fun l => l ++ [1]) w)).
Proof.
  intros pe Hex.
  apply (idle_inv_exec _ _ _ (idle_inv_init config)) in Hex. subst e.
  repeat (split; [done|]). split.
  - intros cfg priority kmd ptr block entryName wg sel w -> Hsel Hmiss Hver.
    destruct sel; [done|]. split.
    + by apply (request_shutdown _ cfg).
    + unfold PrefetchBlock. rewrite wg_new_Add by lia.
      by apply (request_shutdown _ cfg).
  - intros cfg priority kmd ptr block entryName wg sel w err -> Hmiss Hver.
    split.
    + by apply (request_bad_version _ cfg).
    + unfold PrefetchBlock. rewrite wg_new_Add by lia.
      by apply (request_bad_version _ cfg).
Qed.

Lemma nil_retriever_is_shut_down_witness :
  exec [LShutdownSelect] eNil = Some eNil
  /\ done_closed eNil = true /\ run eNil = RunNotStarted
  /\ request pNil (-100) kmd0 ptrB (BFileBlock emptyFileBlock) EmptyString 0%nat
       SelShutdown w0
     = Some (Some (ErrShutdownEOF "B"), w0)
  /\ request pNil (-100) kmd0 ptrNew (BFileBlock emptyFileBlock) EmptyString
       0%nat SelShutdown w0
     = Some (Some (ErrDataVersion (mkDataVersionError 2)), w0).
Proof.
  assert (Hex : exec [LShutdownSelect] eNil = Some eNil) by reflexivity.
  destruct (nil_retriever_is_shut_down (Some cfg0) [LShutdownSelect] eNil Hex)
    as (_ & Hd & _ & Hr & _ & _ & _ & Hreq & Hver).
  split; [exact Hex|]. split; [exact Hd|]. split; [exact Hr|]. split.
  - exact (proj1 (Hreq cfg0 (-100) kmd0 ptrB (BFileBlock emptyFileBlock)
                    EmptyString 0%nat SelShutdown w0
                    eq_refl eq_refl eq_refl eq_refl)).
  - exact (proj1 (Hver cfg0 (-100) kmd0 ptrNew (BFileBlock emptyFileBlock)
                    EmptyString 0%nat SelShutdown w0 (mkDataVersionError 2)
                    eq_refl eq_refl eq_refl)).
Defined.

(** ** The done signal *)

(** C2. In every state an engine can reach, [doneCh] is closed only if
    shutdown has been signalled, every request the run loop accepted has
    terminated (its retrieval has delivered and its goroutine is through)
    and the run loop holds no request; conversely, once shutdown has been
    signalled and every accepted request has terminated, the run loop
    closes [doneCh] by its own steps. A goroutine that has seen the
    shutdown has cancelled its context and waits for the retriever, and
    [doneCh] is open as long as it waits. From any state after the
    shutdown signal, the engine and the retriever can reach the close of
    [doneCh]. *)
Theorem done_iff_shutdown_and_drained (retriever : bool)
    (config : option prefetcherConfig) (ls : list label) (e : engine) :
  exec ls (newBlockPrefetcher retriever config).2 = Some e ->
  (done_closed e = true ->
   shutdown_closed e = true
   /\ Forall (fun t => terminated t = true) (tasks e)
   /\ holds_request e = false)
  /\ (shutdown_closed e = true ->
      Forall (fun t => terminated t = true) (tasks e) ->
      holds_request e = false ->
      panicked e = false ->
      exists ls' e',
        Forall (fun l => run_exit_step l = true) ls'
        /\ exec ls' e = Some e' /\ done_closed e' = true)
  /\ (forall i t,
        tasks e !! i = Some t -> t_pc t = TkCancelWait ->
        t_cancelled t = true /\ t_errCh t <> ErrReceived
        /\ done_closed e = false)
  /\ (shutdown_closed e = true -> panicked e = false ->
      exists ls' e',
        Forall (fun l => internal l = true) ls'
        /\ exec ls' e = Some e' /\ done_closed e' = true).
Proof.
  intros Hex. destruct retriever.
  - assert (Hinv : engine_inv e)
      by (eapply engine_inv_exec; [apply engine_inv_init|exact Hex]).
    split; [|split; [|split]].
    + by apply done_closed_drained.
    + intros Hsd Hall Hhold Hp.
      destruct (run_loop_closes_done e Hinv Hp Hsd Hall Hhold)
        as (ls' & e' & H1 & H2 & H3 & _).
      by exists ls', e'.
    + intros i t. by apply cancel_wait_blocks_done.
    + intros Hsd Hp. by apply shutdown_leads_to_done.
  - apply (idle_inv_exec _ _ _ (idle_inv_init config)) in Hex. subst e.
    split; [|split; [|split]]; try done.
    + intros _ _ _ _. by exists [], (newBlockPrefetcher false config).2.
    + intros _ _. by exists [], (newBlockPrefetcher false config).2.
Qed.

Lemma done_iff_shutdown_and_drained_witness :
  exists e,
    exec schedule0 e0 = Some e
    /\ done_closed e = true
    /\ shutdown_closed e = true
    /\ Forall (fun t => terminated t = true) (tasks e)
    /\ holds_request e = false.
Proof.
  destruct (exec schedule0 e0) as [e|] eqn:Hex; [|by vm_compute in Hex].
  exists e. split; [reflexivity|].
  assert (Hd : done_closed e = true).
  { vm_compute in Hex. by injection Hex as <-. }
  split; [exact Hd|].
  exact (proj1 (done_iff_shutdown_and_drained true (Some cfg0) schedule0 e Hex)
           Hd).
Defined.

(** * Further properties *)

(** ** The engine: what it does with each accepted request *)

Lemma released_of_app ts t :
  released_of (ts ++ [t])
  = released_of ts ++ (if past_parent_done t then [wg (t_req t)] else []).
Proof.
  induction ts as [|t0 ts IH]; simpl; [by rewrite app_nil_r|].
  by rewrite IH, app_assoc.
Qed.

Lemma released_of_insert_same ts i t t' :
  ts !! i = Some t ->
  t_req t' = t_req t -> past_parent_done t' = past_parent_done t ->
  released_of (<[i := t']> ts) = released_of ts.
Proof.
  revert i. induction ts as [|t0 ts IH]; intros [|i] Hi Hreq Hpast;
    simpl in *; try done.
  - injection Hi as ->. by rewrite Hreq, Hpast.
  - by rewrite (IH i).
Qed.

Lemma released_of_insert_done ts i t t' :
  ts !! i = Some t ->
  t_req t' = t_req t ->
  past_parent_done t = false -> past_parent_done t' = true ->
  released_of (<[i := t']> ts) ≡ₚ released_of ts ++ [wg (t_req t)].
Proof.
  revert i. induction ts as [|t0 ts IH]; intros [|i] Hi Hreq Hno Hyes;
    simpl in *; try done.
  - injection Hi as ->. rewrite Hreq, Hno, Hyes. simpl.
    by rewrite Permutation_cons_append.
  - rewrite (IH i) by done. by rewrite app_assoc.
Qed.

Lemma released_of_all ts :
  Forall (fun t => past_parent_done t = true) ts ->
  released_of ts = wg <$> (t_req <$> ts).
Proof.
  induction 1 as [|t ts Ht _ IH]; simpl; [done|]. by rewrite Ht, IH.
Qed.

Lemma engine_inv2_init config :
  engine_inv2 (newBlockPrefetcher true config).2.
Proof. constructor; simpl; [done|constructor]. Qed.

Lemma task_step_inv2 e i t t' :
  engine_inv2 e ->
  tasks e !! i = Some t ->
  t_req t' = t_req t -> past_parent_done t' = past_parent_done t ->
  cancelled_when_exited t' ->
  engine_inv2 (set_tasks (<[i := t']> (tasks e)) e).
Proof.
  intros [Hrel Hcan] Hi Hreq Hpast Hc. constructor; simpl.
  - by rewrite (released_of_insert_same _ _ t).
  - by apply Forall_insert.
Qed.

Lemma engine_inv2_step l e e' :
  engine_inv e -> engine_inv2 e -> step l e = Some e' -> engine_inv2 e'.
Proof.
  intros Hinv Hinv2 Hstep.
  pose proof Hinv as [Hst Hpend Hts Hleft Hwait Hdone].
  pose proof Hinv2 as [Hrel Hcan].
  unfold step in Hstep. destruct (panicked e) eqn:Hp; [done|].
  destruct l.
  - destruct (run e); try done. injection Hstep as <-. by constructor.
  - destruct (run e); try done. destruct (shutdown_closed e); [|done].
    injection Hstep as <-. by constructor.
  - destruct (run e); try done. injection Hstep as <-.
    constructor; simpl.
    + rewrite released_of_app. simpl. by rewrite app_nil_r.
    + apply Forall_app. split; [done|]. by repeat constructor.
  - destruct (run e); try done. destruct (decide _); [|done].
    injection Hstep as <-. by constructor.
  - destruct (run e); try done. injection Hstep as <-.
    unfold close_doneCh. destruct (done_closed e); by constructor.
  - apply step_task_Some in Hstep as (t & t' & g & Hi & Hf & ->).
    pose proof (proj1 (Forall_lookup _ _) Hcan i t Hi) as Hc.
    destruct (t_errCh t) eqn:Herr; try done. injection Hf as <- <-.
    by apply (task_step_inv2 e i t).
  - apply step_task_Some in Hstep as (t & t' & g & Hi & Hf & ->).
    destruct (t_pc t) eqn:Hpc; try done.
    destruct (t_errCh t) eqn:Herr; try done. injection Hf as <- <-.
    apply (task_step_inv2 e i t); try done.
    unfold past_parent_done. simpl. by rewrite Hpc.
  - destruct (shutdown_closed e); [|done].
    apply step_task_Some in Hstep as (t & t' & g & Hi & Hf & ->).
    destruct (t_pc t) eqn:Hpc; try done. injection Hf as <- <-.
    apply (task_step_inv2 e i t); try done.
    unfold past_parent_done. simpl. by rewrite Hpc.
  - apply step_task_Some in Hstep as (t & t' & g & Hi & Hf & ->).
    destruct (t_pc t) eqn:Hpc; try done.
    destruct (t_errCh t) eqn:Herr; try done. injection Hf as <- <-.
    apply (task_step_inv2 e i t); try done.
    unfold past_parent_done. simpl. by rewrite Hpc.
  - apply step_task_Some in Hstep as (t & t' & g & Hi & Hf & ->).
    destruct (t_pc t) eqn:Hpc; try done. injection Hf as <- <-.
    constructor; simpl.
    + rewrite (released_of_insert_done _ _ t) by
        (try done; unfold past_parent_done; by rewrite Hpc).
      by rewrite Hrel.
    + by apply Forall_insert.
  - apply step_task_Some in Hstep as (t & t' & g & Hi & Hf & ->).
    destruct (t_pc t) eqn:Hpc; try done. injection Hf as <- <-.
    simpl. destruct (decide _); constructor; simpl;
      try (rewrite (released_of_insert_same _ _ t); try done;
           unfold past_parent_done; simpl; by rewrite Hpc);
      by apply Forall_insert.
  - destruct (shutdown_closed e); injection Hstep as <-; [done|].
    by constructor.
  - destruct (closers e); [done|]. injection Hstep as <-.
    unfold close_shutdownCh. simpl. destruct (shutdown_closed e); by constructor.
Qed.

Lemma engine_inv2_exec ls :
  forall e e',
    engine_inv e -> engine_inv2 e -> exec ls e = Some e' -> engine_inv2 e'.
Proof.
  induction ls as [|l ls IH]; intros e e' Hinv Hinv2 Hex; simpl in Hex.
  - by injection Hex as <-.
  - destruct (step l e) as [e1|] eqn:Hstep; simpl in Hex; [|done].
    eapply (IH e1); [|by eapply engine_inv2_step|exact Hex].
    by eapply engine_inv_step.
Qed.

(** The only step that can panic in a started engine is the [close] of a
    [Shutdown] call that finds [shutdownCh] closed by another call. *)
Lemma step_panics_only_in_Shutdown l e e' :
  engine_inv e -> step l e = Some e' -> panicked e' = true ->
  l = LShutdownClose /\ shutdown_closed e = true.
Proof.
  intros Hinv Hstep Hpanic.
  pose proof Hinv as [Hst Hpend Hts Hleft Hwait Hdone].
  unfold step in Hstep. destruct (panicked e) eqn:Hp; [done|].
  destruct l;
    try (destruct (run e) eqn:Hrun; try done;
         try (destruct (shutdown_closed e); [|done]);
         try (destruct (decide (pending e = 0)); [|done]);
         injection Hstep as <-; simpl in Hpanic; congruence).
  - destruct (run e) eqn:Hrun; try done. injection Hstep as <-.
    unfold close_doneCh in Hpanic. rewrite Hdone in Hpanic.
    simpl in Hpanic. congruence.
  - apply step_task_Some in Hstep as (t & t' & g & Hi & Hf & ->).
    destruct (t_errCh t); try done. injection Hf as <- <-.
    simpl in Hpanic. congruence.
  - apply step_task_Some in Hstep as (t & t' & g & Hi & Hf & ->).
    destruct (t_pc t); try done. destruct (t_errCh t); try done.
    injection Hf as <- <-. simpl in Hpanic. congruence.
  - destruct (shutdown_closed e); [|done].
    apply step_task_Some in Hstep as (t & t' & g & Hi & Hf & ->).
    destruct (t_pc t); try done. injection Hf as <- <-.
    simpl in Hpanic. congruence.
  - apply step_task_Some in Hstep as (t & t' & g & Hi & Hf & ->).
    destruct (t_pc t); try done. destruct (t_errCh t); try done.
    injection Hf as <- <-. simpl in Hpanic. congruence.
  - apply step_task_Some in Hstep as (t & t' & g & Hi & Hf & ->).
    destruct (t_pc t); try done. injection Hf as <- <-.
    simpl in Hpanic. congruence.
  - apply step_task_Some in Hstep as (t & t' & g & Hi & Hf & ->).
    destruct (t_pc t) eqn:Hpc; try done. injection Hf as <- <-.
    assert (Hpos : 0 < pending e).
    { rewrite Hpend. apply (active_count_pos _ i t Hi).
      unfold active. by rewrite Hpc. }
    simpl in Hpanic. rewrite decide_True in Hpanic by done.
    simpl in Hpanic. congruence.
  - destruct (shutdown_closed e); injection Hstep as <-;
      simpl in Hpanic; congruence.
  - split; [done|]. destruct (closers e); [done|]. injection Hstep as <-.
    unfold close_shutdownCh in Hpanic. simpl in Hpanic.
    destruct (shutdown_closed e); [done|]. simpl in Hpanic. congruence.
Qed.

(** Once [doneCh] is closed, a step changes nothing of the run loop, the
    goroutines and the calls made on the callers' wait groups. *)
Lemma step_after_done l e e' :
  engine_inv e -> done_closed e = true -> step l e = Some e' ->
  run e' = run e /\ tasks e' = tasks e /\ released e' = released e
  /\ pending e' = pending e /\ done_closed e' = true
  /\ shutdown_closed e' = true.
Proof.
  intros Hinv Hd Hstep.
  destruct (done_closed_drained e Hinv Hd) as (Hsd & Hall & _).
  pose proof Hinv as [Hst Hpend Hts Hleft Hwait Hdone].
  rewrite Hd in Hdone. destruct (run e) eqn:Hrun; try done.
  assert (Hno : forall i t, tasks e !! i = Some t ->
                  t_pc t = TkExited /\ t_errCh t = ErrReceived).
  { intros i t Hi. pose proof (proj1 (Forall_lookup _ _) Hall i t Hi) as Ht.
    unfold terminated in Ht. by destruct (t_pc t), (t_errCh t). }
  unfold step in Hstep. destruct (panicked e); [done|].
  destruct l; rewrite ?Hrun, ?Hsd in Hstep; try done;
    try (apply step_task_Some in Hstep as (t & t' & g & Hi & Hf & ->);
         destruct (Hno i t Hi) as [Hpc Herr]; rewrite ?Hpc, ?Herr in Hf;
         done).
  - injection Hstep as <-. by rewrite Hrun.
  - destruct (closers e); [done|]. injection Hstep as <-.
    unfold close_shutdownCh. simpl. rewrite Hsd. simpl. by rewrite Hrun.
Qed.

Lemma exec_after_done ls :
  forall e e',
    engine_inv e -> done_closed e = true -> exec ls e = Some e' ->
    run e' = run e /\ tasks e' = tasks e /\ released e' = released e
    /\ pending e' = pending e /\ done_closed e' = true.
Proof.
  induction ls as [|l ls IH]; intros e e' Hinv Hd Hex; simpl in Hex.
  - by injection Hex as <-.
  - destruct (step l e) as [e1|] eqn:Hstep; simpl in Hex; [|done].
    destruct (step_after_done l e e1 Hinv Hd Hstep)
      as (Hr & Ht & Hrel & Hp & Hd1 & _).
    destruct (IH e1 e' (engine_inv_step _ _ _ Hinv Hstep) Hd1 Hex)
      as (Hr' & Ht' & Hrel' & Hp' & Hd').
    rewrite Hr', Ht', Hrel', Hp', Hr, Ht, Hrel, Hp. done.
Qed.

(** A step adds to the requests dispatched or held exactly what it
    receives. *)
Lemma step_received l e e' :
  step l e = Some e' ->
  dispatched e' ++ held e' = dispatched e ++ held e ++ received [l].
Proof.
  intros Hstep. unfold step in Hstep. destruct (panicked e); [done|].
  unfold dispatched, held, received.
  destruct l; simpl;
    try (apply step_task_Some in Hstep as (t & t' & g & Hi & Hf & ->);
         destruct (t_pc t) eqn:Hpc; try done;
         destruct (t_errCh t) eqn:Herr; try done;
         injection Hf as <- <-; simpl;
         try (destruct (decide _)); simpl;
         rewrite (dispatched_insert e i t) by done;
         by rewrite app_nil_r).
  - destruct (run e); try done. injection Hstep as <-. done.
  - destruct (run e); try done. destruct (shutdown_closed e); [|done].
    injection Hstep as <-. done.
  - destruct (run e); try done. injection Hstep as <-. simpl.
    rewrite fmap_app. simpl. by rewrite !app_nil_r.
  - destruct (run e); try done. destruct (decide _); [|done].
    injection Hstep as <-. done.
  - destruct (run e); try done. injection Hstep as <-.
    unfold close_doneCh. destruct (done_closed e); done.
  - destruct (shutdown_closed e); [|done].
    apply step_task_Some in Hstep as (t & t' & g & Hi & Hf & ->).
    destruct (t_pc t) eqn:Hpc; try done. injection Hf as <- <-. simpl.
    rewrite (dispatched_insert e i t) by done. by rewrite app_nil_r.
  - destruct (shutdown_closed e); injection Hstep as <-; simpl;
      by rewrite app_nil_r.
  - destruct (closers e); [done|]. injection Hstep as <-.
    unfold close_shutdownCh. simpl.
    destruct (shutdown_closed e); simpl; by rewrite app_nil_r.
Qed.

Lemma received_app ls1 ls2 : received (ls1 ++ ls2) = received ls1 ++ received ls2.
Proof. unfold received. apply omap_app. Qed.

Lemma exec_received ls :
  forall e e',
    exec ls e = Some e' ->
    dispatched e' ++ held e' = dispatched e ++ held e ++ received ls.
Proof.
  induction ls as [|l ls IH]; intros e e' Hex; simpl in Hex.
  - injection Hex as <-. unfold received. simpl. by rewrite app_nil_r.
  - destruct (step l e) as [e1|] eqn:Hstep; simpl in Hex; [|done].
    rewrite (IH e1 e' Hex), app_assoc, (step_received l e e1 Hstep).
    change (l :: ls) with ([l] ++ ls). rewrite received_app.
    by rewrite <- !app_assoc.
Qed.

(** X1. Every request the run loop receives is passed to the retriever,
    once and in the order of receipt; at any moment the requests
    dispatched, followed by the one the run loop may be holding, are the
    requests received so far. Nothing received is dropped, also when
    shutdown is signalled in between. *)
Theorem received_requests_dispatched_in_order (retriever : bool)
    (config : option prefetcherConfig) (ls : list label) (e : engine) :
  exec ls (newBlockPrefetcher retriever config).2 = Some e ->
  dispatched e ++ held e = received ls.
Proof.
  intros Hex. rewrite (exec_received ls _ e Hex). by destruct retriever.
Qed.

Lemma received_requests_dispatched_in_order_witness :
  exists e,
    exec schedule0 e0 = Some e
    /\ dispatched e ++ held e = [req0].
Proof.
  destruct (exec schedule0 e0) as [e|] eqn:Hex; [|by vm_compute in Hex].
  exists e. split; [reflexivity|].
  exact (received_requests_dispatched_in_order true (Some cfg0) schedule0 e Hex).
Defined.

(** X2. [req.wg.Done()] is called once for each accepted request whose
    goroutine has got past that line and for no other; when [doneCh] is
    closed it has been called exactly once for every request that was
    passed to the retriever. *)
Theorem Done_called_once_per_request (retriever : bool)
    (config : option prefetcherConfig) (ls : list label) (e : engine) :
  exec ls (newBlockPrefetcher retriever config).2 = Some e ->
  released e ≡ₚ released_of (tasks e)
  /\ (done_closed e = true -> released e ≡ₚ wg <$> dispatched e).
Proof.
  intros Hex. destruct retriever.
  - assert (Hinv : engine_inv e)
      by (eapply engine_inv_exec; [apply engine_inv_init|exact Hex]).
    assert (Hinv2 : engine_inv2 e).
    { eapply engine_inv2_exec; [apply engine_inv_init|
                                apply engine_inv2_init|exact Hex]. }
    destruct Hinv2 as [Hrel _]. split; [done|].
    intros Hd. rewrite Hrel. unfold dispatched.
    rewrite released_of_all; [done|].
    destruct (done_closed_drained e Hinv Hd) as (_ & Hall & _).
    eapply Forall_impl; [exact Hall|]. intros t Ht.
    unfold terminated in Ht. unfold past_parent_done.
    by destruct (t_pc t).
  - apply (idle_inv_exec _ _ _ (idle_inv_init config)) in Hex. by subst e.
Qed.

Lemma Done_called_once_per_request_witness :
  exists e,
    exec schedule0 e0 = Some e
    /\ released e ≡ₚ released_of (tasks e).
Proof.
  destruct (exec schedule0 e0) as [e|] eqn:Hex; [|by vm_compute in Hex].
  exists e. split; [reflexivity|].
  exact (proj1 (Done_called_once_per_request true (Some cfg0) schedule0 e Hex)).
Defined.

(** X3. The context of every accepted request is cancelled by the time its
    goroutine is through, whether the retrieval completed, failed or was
    interrupted by the shutdown; when [doneCh] is closed every context has
    been cancelled. *)
Theorem finished_requests_are_cancelled (retriever : bool)
    (config : option prefetcherConfig) (ls : list label) (e : engine) :
  exec ls (newBlockPrefetcher retriever config).2 = Some e ->
  (forall i t, tasks e !! i = Some t -> t_pc t = TkExited ->
               t_cancelled t = true)
  /\ (done_closed e = true ->
      Forall (fun t => t_cancelled t = true) (tasks e)).
Proof.
  intros Hex. destruct retriever.
  - assert (Hinv : engine_inv e)
      by (eapply engine_inv_exec; [apply engine_inv_init|exact Hex]).
    assert (Hinv2 : engine_inv2 e).
    { eapply engine_inv2_exec; [apply engine_inv_init|
                                apply engine_inv2_init|exact Hex]. }
    destruct Hinv2 as [_ Hcan]. split.
    + intros i t Hi. by apply (proj1 (Forall_lookup _ _) Hcan i t Hi).
    + intros Hd. destruct (done_closed_drained e Hinv Hd) as (_ & Hall & _).
      apply Forall_lookup. intros i t Hi.
      apply (proj1 (Forall_lookup _ _) Hcan i t Hi).
      pose proof (proj1 (Forall_lookup _ _) Hall i t Hi) as Ht.
      unfold terminated in Ht. by destruct (t_pc t).
  - apply (idle_inv_exec _ _ _ (idle_inv_init config)) in Hex. by subst e.
Qed.

Lemma finished_requests_are_cancelled_witness :
  exists e,
    exec schedule0 e0 = Some e
    /\ done_closed e = true
    /\ Forall (fun t => t_cancelled t = true) (tasks e).
Proof.
  destruct (exec schedule0 e0) as [e|] eqn:Hex; [|by vm_compute in Hex].
  exists e. split; [reflexivity|].
  assert (Hd : done_closed e = true).
  { vm_compute in Hex. by injection Hex as <-. }
  split; [exact Hd|].
  exact (proj2 (finished_requests_are_cancelled true (Some cfg0) schedule0 e
                  Hex) Hd).
Defined.

(** X4. The run loop and the tracking goroutines never panic: the wait
    group of [run] never goes below zero and [doneCh] is never closed
    twice. The one step of the engine that can panic is the
    [close(p.shutdownCh)] of a [Shutdown] call that finds the channel
    closed by another call since its select. *)
Theorem engine_panics_only_in_overtaken_Shutdown (retriever : bool)
    (config : option prefetcherConfig) (ls : list label) (e e' : engine)
    (l : label) :
  exec ls (newBlockPrefetcher retriever config).2 = Some e ->
  step l e = Some e' ->
  panicked e' = true ->
  l = LShutdownClose /\ shutdown_closed e = true.
Proof.
  intros Hex Hstep Hpanic. destruct retriever.
  - eapply step_panics_only_in_Shutdown; [|exact Hstep|exact Hpanic].
    eapply engine_inv_exec; [apply engine_inv_init|exact Hex].
  - apply (idle_inv_exec _ _ _ (idle_inv_init config)) in Hex. subst e.
    apply (idle_inv_step _ _ _ (idle_inv_init config)) in Hstep. subst e'.
    done.
Qed.

Lemma engine_panics_only_in_overtaken_Shutdown_witness :
  exists e e',
    exec [LShutdownSelect; LShutdownSelect; LShutdownClose] e0 = Some e
    /\ step LShutdownClose e = Some e'
    /\ panicked e' = true
    /\ shutdown_closed e = true.
Proof.
  destruct (exec [LShutdownSelect; LShutdownSelect; LShutdownClose] e0)
    as [e|] eqn:Hex; [|by vm_compute in Hex].
  destruct (step LShutdownClose e) as [e'|] eqn:Hstep.
  2: { vm_compute in Hex. injection Hex as <-. by vm_compute in Hstep. }
  assert (Hp : panicked e' = true).
  { vm_compute in Hex. injection Hex as <-. vm_compute in Hstep.
    by injection Hstep as <-. }
  exists e, e'. split; [reflexivity|]. split; [exact Hstep|].
  split; [exact Hp|].
  exact (proj2 (engine_panics_only_in_overtaken_Shutdown true (Some cfg0)
                  _ e e' LShutdownClose Hex Hstep Hp)).
Defined.

(** X5. The wait group of [run] counts the tracking goroutines that have
    not finished: it is never negative, and it is zero exactly when every
    goroutine started so far is through. *)
Theorem pending_counts_unfinished_goroutines (retriever : bool)
    (config : option prefetcherConfig) (ls : list label) (e : engine) :
  exec ls (newBlockPrefetcher retriever config).2 = Some e ->
  pending e = active_count (tasks e)
  /\ 0 <= pending e
  /\ (pending e = 0 <-> Forall (fun t => t_pc t = TkExited) (tasks e)).
Proof.
  intros Hex.
  assert (Hpend : pending e = active_count (tasks e)).
  { destruct retriever.
    - apply inv_pending.
      eapply engine_inv_exec; [apply engine_inv_init|exact Hex].
    - apply (idle_inv_exec _ _ _ (idle_inv_init config)) in Hex.
      by subst e. }
  split; [done|]. rewrite Hpend. split; [apply active_count_nonneg|].
  split.
  - intros Hz. eapply Forall_impl; [apply (active_count_zero _ Hz)|].
    intros t. unfold active. by destruct (t_pc t).
  - intros Hall. apply active_count_all_exited.
    eapply Forall_impl; [exact Hall|]. intros t. unfold active. by intros ->.
Qed.

Lemma pending_counts_unfinished_goroutines_witness :
  exists e,
    exec schedule0_waiting e0 = Some e
    /\ pending e = active_count (tasks e).
Proof.
  destruct (exec schedule0_waiting e0) as [e|] eqn:Hex;
    [|by vm_compute in Hex].
  exists e. split; [reflexivity|].
  exact (proj1 (pending_counts_unfinished_goroutines true (Some cfg0)
                  schedule0_waiting e Hex)).
Defined.

(** X6. Once [doneCh] is closed nothing more happens in the engine: it
    stays closed, no request is received any more, no retrieval is
    dispatched, and no call is made on a caller's wait group. *)
Theorem nothing_happens_after_done (retriever : bool)
    (config : option prefetcherConfig) (ls ls' : list label)
    (e e' : engine) :
  exec ls (newBlockPrefetcher retriever config).2 = Some e ->
  done_closed e = true ->
  exec ls' e = Some e' ->
  done_closed e' = true /\ received ls' = []
  /\ dispatched e' = dispatched e /\ tasks e' = tasks e
  /\ released e' = released e.
Proof.
  intros Hex Hd Hex'. destruct retriever.
  - assert (Hinv : engine_inv e)
      by (eapply engine_inv_exec; [apply engine_inv_init|exact Hex]).
    destruct (exec_after_done ls' e e' Hinv Hd Hex')
      as (Hr & Ht & Hrel & _ & Hd').
    pose proof (exec_received ls' e e' Hex') as Hrecv.
    unfold dispatched, held in *. rewrite Hr, Ht in Hrecv.
    split; [done|]. split; [|by rewrite Ht].
    apply (f_equal length) in Hrecv. rewrite !length_app in Hrecv.
    apply nil_length_inv. lia.
  - apply (idle_inv_exec _ _ _ (idle_inv_init config)) in Hex. subst e.
    pose proof (exec_received ls' _ e' Hex') as Hrecv.
    apply (idle_inv_exec _ _ _ (idle_inv_init config)) in Hex'. subst e'.
    split; [done|]. split; [|done].
    apply (f_equal length) in Hrecv. rewrite !length_app in Hrecv.
    apply nil_length_inv. lia.
Qed.

Lemma nothing_happens_after_done_witness :
  exists e,
    exec schedule0 e0 = Some e
    /\ done_closed e = true
    /\ exec [LShutdownSelect] e = Some e
    /\ dispatched e = dispatched e.
Proof.
  destruct (exec schedule0 e0) as [e|] eqn:Hex; [|by vm_compute in Hex].
  exists e.
  assert (Hd : done_closed e = true).
  { vm_compute in Hex. by injection Hex as <-. }
  assert (Hex' : exec [LShutdownSelect] e = Some e).
  { vm_compute in Hex. injection Hex as <-. reflexivity. }
  split; [reflexivity|]. split; [exact Hd|]. split; [exact Hex'|].
  destruct (nothing_happens_after_done true (Some cfg0) schedule0
              [LShutdownSelect] e e Hex Hd Hex') as (_ & _ & H & _).
  exact H.
Defined.

(** X7. A call of [request] that reaches its select cannot stay there for
    ever: whatever state the engine is in, the run loop comes by its own
    steps to a state in which the send or the shutdown case can be
    taken. *)
Theorem request_select_never_stuck (retriever : bool)
    (config : option prefetcherConfig) (ls : list label) (e : engine) :
  exec ls (newBlockPrefetcher retriever config).2 = Some e ->
  panicked e = false ->
  exists ls' e',
    Forall (fun l => internal l = true) ls' /\ exec ls' e = Some e'
    /\ (select_ready e' SelSend = true \/ select_ready e' SelShutdown = true).
Proof.
  intros Hex Hp. destruct retriever.
  - apply request_select_can_proceed; [|done].
    eapply engine_inv_exec; [apply engine_inv_init|exact Hex].
  - apply (idle_inv_exec _ _ _ (idle_inv_init config)) in Hex. subst e.
    exists [], (newBlockPrefetcher false config).2. auto.
Qed.

Lemma request_select_never_stuck_witness :
  exists e ls' e',
    exec [LRecv req0] e0 = Some e
    /\ panicked e = false
    /\ select_ready e SelSend = false /\ select_ready e SelShutdown = false
    /\ exec ls' e = Some e'
    /\ (select_ready e' SelSend = true \/ select_ready e' SelShutdown = true).
Proof.
  destruct (exec [LRecv req0] e0) as [e|] eqn:Hex; [|by vm_compute in Hex].
  assert (He : e = set_run (RunDispatch req0) e0).
  { vm_compute in Hex. by injection Hex as <-. }
  assert (Hp : panicked e = false) by (by rewrite He).
  destruct (request_select_never_stuck true (Some cfg0) [LRecv req0] e Hex Hp)
    as (ls' & e' & _ & Hex' & Hready).
  exists e, ls', e'. rewrite He in *. repeat split; try done.
Defined.

(** ** Fan-outs: what the wait group of a fan-out counts *)

Lemma omap_imap_length {A B C} (f : nat -> A -> option B)
    (g : nat -> A -> option C) (l : list A) :
  (forall i x, is_Some (f i x) <-> is_Some (g i x)) ->
  length (omap id (imap f l)) = length (omap id (imap g l)).
Proof.
  revert f g. induction l as [|x l IH]; intros f g Hfg; [done|].
  rewrite !imap_cons. simpl.
  specialize (IH (f ∘ S) (g ∘ S) (fun i y => Hfg (S i) y)).
  pose proof (Hfg 0%nat x) as H0.
  destruct (f 0%nat x), (g 0%nat x); simpl.
  - f_equal. exact IH.
  - by destruct (proj1 H0 (mk_is_Some _ _ eq_refl)).
  - by destruct (proj2 H0 (mk_is_Some _ _ eq_refl)).
  - exact IH.
Qed.

Lemma dropped_cons cfg sels (c : BlockPointer * option Block) cs :
  dropped cfg sels (c :: cs)
  = ((match c.2 with
      | Some _ => if admitted cfg c.1 (sels 0%nat) then 0 else 1
      | None => 0
      end) + dropped cfg (sels ∘ S) cs)%nat.
Proof.
  unfold dropped. rewrite imap_cons.
  destruct c as [cp [blk|]]; simpl;
    [destruct (admitted cfg cp (sels 0%nat)); simpl; [|f_equal]|];
    apply omap_imap_length; intros i [cp' [blk'|]]; simpl; try done;
    by destruct (admitted cfg cp' (sels (S i))).
Qed.

Lemma fanout_requests_cons_length cfg kmd wg prio sels
    (c : BlockPointer * option Block) cs :
  length (fanout_requests cfg kmd wg prio sels (c :: cs))
  = ((match c.2 with
      | Some _ => if admitted cfg c.1 (sels 0%nat) then 1 else 0
      | None => 0
      end)
     + length (fanout_requests cfg kmd wg (prio ∘ S) (sels ∘ S) cs))%nat.
Proof.
  unfold fanout_requests. rewrite imap_cons.
  destruct c as [cp [blk|]]; unfold child_request at 1; simpl; [|done].
  by destruct (admitted cfg cp (sels 0%nat)).
Qed.

(** Every child of a fan-out is skipped by the policy, or its request is
    handed over, or its call of [request] returns without handing it
    over. *)
Lemma fanout_count cfg kmd wg cs :
  forall prio sels,
    length cs
    = (skipped cs + length (fanout_requests cfg kmd wg prio sels cs)
       + dropped cfg sels cs)%nat.
Proof.
  induction cs as [|c cs IH]; intros prio sels; [done|].
  specialize (IH (prio ∘ S) (sels ∘ S)).
  rewrite dropped_cons, fanout_requests_cons_length. simpl length.
  destruct c as [cp [blk|]].
  - rewrite (skipped_cons_Some _ _ blk) by done. simpl.
    destruct (admitted cfg cp (sels 0%nat)); lia.
  - rewrite skipped_cons_None by done. simpl. lia.
Qed.

(** [k] calls of [wg.Done()] on a counter that holds at least [k]. *)
Lemma wg_Done_times_run l k :
  forall w c,
    wgs w !! l = Some c -> Z.of_nat k <= c ->
    exists w',
      wg_Done_times l k w = Some (tt, w')
      /\ wgs w' = <[l := c - Z.of_nat k]> (wgs w)
      /\ chans w' = chans w /\ sent w' = sent w /\ waiters w' = waiters w.
Proof.
  induction k as [|k IH]; intros w c Hc Hle.
  - exists w. simpl. unfold ret. rewrite Z.sub_0_r, list_insert_id by done. done.
  - simpl wg_Done_times. unfold bind, wg_Done, wg_Add. rewrite Hc.
    rewrite decide_True by lia.
    assert (Hlt : (l < length (wgs w))%nat) by (by eapply lookup_lt_Some).
    destruct (IH (set_wgs (fun cs => <[l := c + -1]> cs) w) (c + -1))
      as (w' & Hrun & Hwgs & Hch & Hs & Hwt).
    { simpl. by rewrite list_lookup_insert_eq. }
    { lia. }
    exists w'. split; [done|]. rewrite Hwgs, Hch, Hs, Hwt. simpl.
    rewrite list_insert_insert_eq. repeat split; try done. f_equal. lia.
Qed.

(** The wait group of a direct directory block: one unit for each entry the
    switch of the loop does not skip. *)
Lemma skipped_entries (es : list DirEntry) :
  (skipped ((fun e => (entryPointer e, entryBlock (Type_ e))) <$> es)
   + length (filter (fun e => prefetchable e = true) es))%nat
  = length es.
Proof.
  induction es as [|e es IH]; [done|].
  rewrite fmap_cons, filter_cons.
  assert (Hp : prefetchable e = true <-> is_Some (entryBlock (Type_ e))).
  { unfold prefetchable.
    destruct (Type_ e); simpl; split; try done; by intros [? ?]. }
  destruct (entryBlock (Type_ e)) as [blk|] eqn:Hb.
  - rewrite (skipped_cons_Some _ _ blk) by done.
    rewrite decide_True by (apply Hp; eauto). simpl. lia.
  - rewrite skipped_cons_None by done.
    rewrite decide_False by (intros H; apply Hp in H; by destruct H).
    simpl. lia.
Qed.

Section FurtherPolicy.
Context `{odp : OnDemandPriority} `{lister : DirEntryLister}
  `{sorter : dirEntriesBySizeAsc}.

(** X8. The wait group of a fan-out counts the requests it handed to the
    run loop and, on top of them, every child whose call of [request]
    returned without handing its request over (cached pointer, rejected
    data version, shutdown). Each child is skipped, sent or dropped, and
    every request sent carries the new wait group. *)
Theorem fanout_counter_counts_sent_and_dropped (p : blockPrefetcher)
    (cfg : prefetcherConfig) (b : Block) (ptr : BlockPointer)
    (kmd : KeyMetadata) (sels : nat -> select_outcome) (w : world) :
  config p = Some cfg ->
  fans_out b = true ->
  exists w' reqs,
    PrefetchAfterBlockRetrieved p b ptr kmd sels w = Some (length (chans w), w')
    /\ sent w' = sent w ++ reqs
    /\ Forall (fun r => wg r = length (wgs w)) reqs
    /\ wgs w' !! length (wgs w)
       = Some (Z.of_nat (length reqs)
               + Z.of_nat (dropped cfg sels (children b)))
    /\ (length reqs + dropped cfg sels (children b) + skipped (children b))%nat
       = length (children b).
Proof.
  intros Hcfg Hfan.
  destruct (PrefetchAfterBlockRetrieved_fanout p cfg Hcfg kmd sels b ptr w Hfan)
    as (w' & Hrun & Hwgs & _ & _ & Hsent).
  exists w'. eexists. split; [exact Hrun|]. split; [exact Hsent|].
  pose proof (fanout_count cfg kmd (length (wgs w))
                (children b) (go_prio (startingPriority cfg b kmd)) sels)
    as Hcount.
  split; [|split].
  - apply Forall_forall. intros r Hr.
    apply elem_of_fanout_requests in Hr as (i & c & blk & _ & _ & _ & ->).
    done.
  - rewrite Hwgs, lookup_at_end. f_equal. lia.
  - lia.
Qed.

(** X9. The channel a fan-out returns closes exactly when the goroutines of
    the run loop have called [Done] for every request of the fan-out and
    no child was dropped: after fewer calls the waiting goroutine is still
    in [wg.Wait()], and when a child was dropped it stays there after the
    last call the run loop will ever make. *)
Theorem fanout_channel_closes_when_drained (p : blockPrefetcher)
    (cfg : prefetcherConfig) (b : Block) (ptr : BlockPointer)
    (kmd : KeyMetadata) (sels : nat -> select_outcome) (w w' : world)
    (ch : chanref) (reqs : list prefetchRequest) (k : nat) :
  config p = Some cfg ->
  fans_out b = true ->
  PrefetchAfterBlockRetrieved p b ptr kmd sels w = Some (ch, w') ->
  sent w' = sent w ++ reqs ->
  (k <= length reqs)%nat ->
  exists w'',
    wg_Done_times (length (wgs w)) k w' = Some (tt, w'')
    /\ (length (wgs w), ch) ∈ waiters w''
    /\ chans w'' !! ch = Some false
    /\ (k = length reqs -> dropped cfg sels (children b) = 0%nat ->
        exists w3,
          waiter_run (length (wgs w), ch) w'' = Some w3
          /\ chans w3 !! ch = Some true)
    /\ ((k < length reqs)%nat \/ (0 < dropped cfg sels (children b))%nat ->
        waiter_run (length (wgs w), ch) w'' = None).
Proof.
  intros Hcfg Hfan Hrun Hsent Hk.
  destruct (PrefetchAfterBlockRetrieved_fanout p cfg Hcfg kmd sels b ptr w Hfan)
    as (w1 & Hrun1 & Hwgs & Hch & Hwt & Hsent1).
  rewrite Hrun in Hrun1. injection Hrun1 as -> ->.
  rewrite Hsent in Hsent1. apply app_inv_head in Hsent1. subst reqs.
  pose proof (fanout_count cfg kmd (length (wgs w))
                (children b) (go_prio (startingPriority cfg b kmd)) sels)
    as Hcount.
  set (reqs := fanout_requests cfg kmd (length (wgs w))
                 (go_prio (startingPriority cfg b kmd)) sels (children b)) in *.
  set (c := Z.of_nat (length (children b)) - Z.of_nat (skipped (children b)))
    in *.
  assert (Hc : wgs w1 !! length (wgs w) = Some c)
    by (rewrite Hwgs; apply lookup_at_end).
  destruct (wg_Done_times_run (length (wgs w)) k w1 c Hc ltac:(lia))
    as (w2 & Hdone & Hwgs2 & Hch2 & _ & Hwt2).
  exists w2. split; [exact Hdone|].
  split; [rewrite Hwt2, Hwt; apply elem_of_app; right; by left|].
  split; [rewrite Hch2, Hch; apply lookup_at_end|].
  split.
  - intros -> Hdr. unfold waiter_run, close_chan. simpl.
    rewrite Hwgs2, Hwgs, insert_at_end, lookup_at_end.
    replace (c - Z.of_nat (length reqs)) with 0 by lia.
    rewrite Hch2, Hch, lookup_at_end. simpl.
    eexists. split; [reflexivity|]. simpl.
    rewrite Hch2, Hch, insert_at_end. apply lookup_at_end.
  - intros Hlt. unfold waiter_run. simpl.
    rewrite Hwgs2, Hwgs, insert_at_end, lookup_at_end.
    destruct (c - Z.of_nat k) eqn:Hz; [lia|done|done].
Qed.

(** X10. For a direct directory block every request that goes to the run
    loop is for an entry of the directory of type [Dir], [File] or [Exec],
    read into an empty block of the matching kind; an entry of another
    type (a symbolic link) is never requested. The wait group of the
    fan-out holds one unit for each entry of those three types, however
    the entries are listed and sorted. *)
Theorem direct_dir_requests_are_prefetchable_entries (p : blockPrefetcher)
    (cfg : prefetcherConfig) (db : DirBlock) (ptr0 : BlockPointer)
    (kmd0' : KeyMetadata) (sels : nat -> select_outcome) (w : world) :
  config p = Some cfg ->
  dIsInd db = false ->
  exists w' reqs,
    PrefetchAfterBlockRetrieved p (BDirBlock db) ptr0 kmd0' sels w
    = Some (length (chans w), w')
    /\ sent w' = sent w ++ reqs
    /\ (forall r, r ∈ reqs ->
          exists name e,
            Children db !! name = Some e
            /\ prefetchable e = true
            /\ ptr r = entryPointer e
            /\ entryBlock (Type_ e) = Some (block r)
            /\ kmd r = kmd0')
    /\ wgs w' !! length (wgs w)
       = Some (Z.of_nat (length (filter (fun e => prefetchable e = true)
                                   (named_entries (Children db)))))
    /\ (length reqs
        <= length (filter (fun e => prefetchable e = true)
                     (named_entries (Children db))))%nat.
Proof.
  intros Hcfg Hind.
  destruct (PrefetchAfterBlockRetrieved_fanout p cfg Hcfg kmd0' sels
              (BDirBlock db) ptr0 w eq_refl)
    as (w' & Hrun & Hwgs & _ & _ & Hsent).
  pose proof (fanout_count cfg kmd0' (length (wgs w)) (children (BDirBlock db))
                (go_prio (startingPriority cfg (BDirBlock db) kmd0')) sels)
    as Hcount.
  simpl children in *. rewrite Hind in *.
  pose proof (skipped_entries (sortedEntries db)) as Hskip.
  assert (Hperm : length (filter (fun e => prefetchable e = true)
                            (sortedEntries db))
                  = length (filter (fun e => prefetchable e = true)
                              (named_entries (Children db))))
    by (by rewrite sortedEntries_perm).
  rewrite length_fmap in Hcount, Hwgs.
  exists w'. eexists. split; [exact Hrun|]. split; [exact Hsent|].
  split; [|split].
  - intros r Hr.
    apply elem_of_fanout_requests in Hr as (i & c & blk & Hi & Hblk & _ & ->).
    rewrite list_lookup_fmap in Hi.
    destruct (sortedEntries db !! i) as [e|] eqn:He; [|done].
    simpl in Hi. injection Hi as <-. simpl in Hblk.
    assert (Hin : e ∈ named_entries (Children db)).
    { rewrite <- sortedEntries_perm. by eapply list_elem_of_lookup_2. }
    unfold named_entries in Hin.
    apply list_elem_of_fmap in Hin as ([name e0] & -> & Hin).
    apply elem_of_map_to_list in Hin.
    exists name, e0. simpl in *. split; [done|].
    split; [|done].
    unfold prefetchable. by destruct (Type_ e0).
  - rewrite Hwgs, lookup_at_end. f_equal. lia.
  - lia.
Qed.

(** X11. A prefetcher may be made with a nil configuration, but the first
    use of the configuration is a nil dereference: [PrefetchBlock] panics,
    and so does [PrefetchAfterBlockRetrieved] for every block that fans
    out, also one without children. For a direct file block and a block of
    another variant, which do not touch the configuration, it still
    returns a closed channel. *)
Theorem nil_config_panics_on_first_use (retriever : bool) (b : Block)
    (parent : BlockPointer) (kmd0' : KeyMetadata)
    (sels : nat -> select_outcome) (w : world) :
  (forall block ptr0 priority0 sel,
     PrefetchBlock (newBlockPrefetcher retriever None).1 block ptr0 kmd0'
       priority0 sel w = None)
  /\ PrefetchAfterBlockRetrieved (newBlockPrefetcher retriever None).1 b
       parent kmd0' sels w
     = if fans_out b then None
       else Some (length (chans w), set_chans (fun l => l ++ [true]) w).
Proof.
  split.
  - intros. unfold PrefetchBlock. rewrite wg_new_Add by lia.
    by destruct retriever.
  - destruct (fans_out b) eqn:Hfan.
    + unfold PrefetchAfterBlockRetrieved, bind at 1. unfold make_chan.
      unfold bind at 1.
      assert (Hnil : forall basePri w1,
                calculatePriority (newBlockPrefetcher retriever None).1
                  basePri (TlfID kmd0') w1 = None)
        by (intros; by destruct retriever).
      destruct b as [fb|db|]; simpl in Hfan; [| |done].
      * rewrite Hfan. unfold prefetchIndirectFileBlock.
        unfold bind at 1. rewrite wg_new_Add by lia.
        unfold bind at 1. by rewrite Hnil.
      * destruct (dIsInd db).
        -- unfold prefetchIndirectDirBlock.
           unfold bind at 1. rewrite wg_new_Add by lia.
           unfold bind at 1. by rewrite Hnil.
        -- unfold prefetchDirectDirBlock.
           unfold bind at 1. rewrite wg_new_Add by lia.
           unfold bind at 1. by rewrite Hnil.
    + by apply PrefetchAfterBlockRetrieved_leaf.
Qed.

(** X12. [PrefetchBlock] makes a wait group of its own that holds one unit
    and passes the priority it is given on as it is, also in a synced
    folder. It sends its one request exactly when the pointer is not
    cached, the data version passes and the select takes the send; it
    returns nil then and for a cached pointer, and an error otherwise. It
    touches no channel and no other wait group. *)
Theorem PrefetchBlock_sends_at_most_one (p : blockPrefetcher)
    (cfg : prefetcherConfig) (block0 : Block) (ptr0 : BlockPointer)
    (kmd0' : KeyMetadata) (priority0 : Z) (sel : select_outcome) (w : world) :
  config p = Some cfg ->
  exists err w',
    PrefetchBlock p block0 ptr0 kmd0' priority0 sel w = Some (err, w')
    /\ wgs w' = wgs w ++ [1]
    /\ chans w' = chans w /\ waiters w' = waiters w
    /\ sent w'
       = sent w ++ (if admitted cfg ptr0 sel
                    then [mkPrefetchRequest priority0 kmd0' ptr0 block0
                            (length (wgs w))]
                    else [])
    /\ (err = None <->
        is_Some (BlockCache cfg !! ptr0) \/ admitted cfg ptr0 sel = true).
Proof.
  intros Hcfg. unfold PrefetchBlock. rewrite wg_new_Add by lia.
  set (w1 := set_wgs _ w). unfold admitted.
  destruct (BlockCache cfg !! ptr0) as [blk|] eqn:Hget.
  { exists None, w1. rewrite (request_cache_hit p cfg Hcfg) by eauto.
    simpl. rewrite app_nil_r. repeat split; eauto. }
  destruct (checkDataVersion cfg ptr0) as [e|] eqn:Hver.
  { eexists _, w1. rewrite (request_bad_version p cfg Hcfg _ _ _ _ _ _ _ _ e)
      by done.
    simpl. rewrite app_nil_r. repeat split; try done.
    intros [[? ?]|?]; done. }
  destruct sel.
  - eexists _, _. rewrite (request_send p cfg Hcfg) by done.
    split; [reflexivity|]. simpl. repeat split; auto.
  - eexists _, w1. rewrite (request_shutdown p cfg Hcfg) by done.
    simpl. rewrite app_nil_r. repeat split; try done.
    intros [[? ?]|?]; done.
Qed.

(** X13. With a configuration [PrefetchAfterBlockRetrieved] always returns:
    its calls of [wg.Done()] for skipped entries never take the counter
    below zero and it closes no channel twice. The channel it returns is a
    new one, closed at the return exactly when the block does not fan out;
    the channels, wait groups, waiting goroutines and requests that were
    there before are as they were. *)
Theorem PrefetchAfterBlockRetrieved_returns_new_channel (p : blockPrefetcher)
    (cfg : prefetcherConfig) (b : Block) (ptr0 : BlockPointer)
    (kmd0' : KeyMetadata) (sels : nat -> select_outcome) (w : world) :
  config p = Some cfg ->
  exists w',
    PrefetchAfterBlockRetrieved p b ptr0 kmd0' sels w
    = Some (length (chans w), w')
    /\ chans w' = chans w ++ [negb (fans_out b)]
    /\ wgs w `prefix_of` wgs w'
    /\ sent w `prefix_of` sent w'
    /\ waiters w'
       = waiters w
         ++ (if fans_out b then [(length (wgs w), length (chans w))] else [])
    /\ (Forall (fun c => 0 <= c) (wgs w) -> Forall (fun c => 0 <= c) (wgs w')).
Proof.
  intros Hcfg. destruct (fans_out b) eqn:Hfan.
  - destruct (PrefetchAfterBlockRetrieved_fanout p cfg Hcfg kmd0' sels b ptr0 w
                Hfan) as (w' & Hrun & Hwgs & Hch & Hwt & Hsent).
    exists w'. split; [done|]. split; [done|].
    split; [rewrite Hwgs; by apply prefix_app_r|].
    split; [rewrite Hsent; by apply prefix_app_r|].
    split; [done|].
    intros Hpos. rewrite Hwgs. apply Forall_app. split; [done|].
    constructor; [|done].
    pose proof (skipped_le (children b)). lia.
  - rewrite (PrefetchAfterBlockRetrieved_leaf p kmd0' sels b ptr0 w Hfan).
    eexists. split; [reflexivity|]. simpl. rewrite app_nil_r.
    repeat split; done.
Qed.

End FurtherPolicy.

Lemma fanout_counter_counts_sent_and_dropped_witness :
  config p0 = Some cfg0
  /\ fans_out (BFileBlock fileOneCached) = true
  /\ exists w' reqs,
       PrefetchAfterBlockRetrieved (odp := onDemand100)
         (lister := listInMapOrder) (sorter := mergeSortBySize)
         p0 (BFileBlock fileOneCached) ptrB kmd0 allSend w0 = Some (0%nat, w')
       /\ sent w' = sent w0 ++ reqs
       /\ wgs w' !! 0%nat
          = Some (Z.of_nat (length reqs)
                  + Z.of_nat (dropped cfg0 allSend
                                (children (lister := listInMapOrder)
                                   (sorter := mergeSortBySize)
                                   (BFileBlock fileOneCached)))).
Proof.
  split; [reflexivity|]. split; [reflexivity|].
  destruct (fanout_counter_counts_sent_and_dropped (odp := onDemand100)
              (lister := listInMapOrder) (sorter := mergeSortBySize)
              p0 cfg0 (BFileBlock fileOneCached) ptrB kmd0 allSend w0
              eq_refl eq_refl)
    as (w' & reqs & Hrun & Hsent & _ & Hwg & _).
  exists w', reqs. split; [exact Hrun|]. split; [exact Hsent|exact Hwg].
Defined.

Lemma fanout_channel_closes_when_drained_witness :
  exists ch w' w'' w3,
    config p0 = Some cfg0
    /\ fans_out (BFileBlock fileTwo) = true
    /\ PrefetchAfterBlockRetrieved (odp := onDemand100)
         (lister := listInMapOrder) (sorter := mergeSortBySize)
         p0 (BFileBlock fileTwo) ptrA kmd0 allSend w0 = Some (ch, w')
    /\ length (sent w') = 2%nat
    /\ wg_Done_times 0%nat 2 w' = Some (tt, w'')
    /\ chans w'' !! ch = Some false
    /\ waiter_run (0%nat, ch) w'' = Some w3
    /\ chans w3 !! ch = Some true.
Proof.
  destruct (PrefetchAfterBlockRetrieved (odp := onDemand100)
              (lister := listInMapOrder) (sorter := mergeSortBySize)
              p0 (BFileBlock fileTwo) ptrA kmd0 allSend w0)
    as [[ch w']|] eqn:Hrun; [|by vm_compute in Hrun].
  assert (Hlen : length (sent w') = 2%nat).
  { vm_compute in Hrun. by injection Hrun as <- <-. }
  assert (Hk : (2 <= length (sent w'))%nat) by (rewrite Hlen; lia).
  destruct (fanout_channel_closes_when_drained (odp := onDemand100)
              (lister := listInMapOrder) (sorter := mergeSortBySize)
              p0 cfg0 (BFileBlock fileTwo) ptrA kmd0 allSend w0 w' ch
              (sent w') 2%nat eq_refl eq_refl Hrun eq_refl Hk)
    as (w'' & Hdone & _ & Hopen & Hclose & _).
  destruct (Hclose (eq_sym Hlen) eq_refl) as (w3 & Hw3 & Hclosed).
  exists ch, w', w'', w3.
  split; [reflexivity|]. split; [reflexivity|]. split; [reflexivity|].
  split; [exact Hlen|]. split; [exact Hdone|]. split; [exact Hopen|].
  split; [exact Hw3|exact Hclosed].
Defined.

Lemma direct_dir_requests_are_prefetchable_entries_witness :
  config p0 = Some cfg0
  /\ dIsInd dirWithSymlink = false
  /\ exists w' reqs,
       PrefetchAfterBlockRetrieved (odp := onDemand100)
         (lister := listInMapOrder) (sorter := mergeSortBySize)
         p0 (BDirBlock dirWithSymlink) ptrA kmd0 allSend w0 = Some (0%nat, w')
       /\ sent w' = sent w0 ++ reqs
       /\ wgs w' !! 0%nat = Some 1.
Proof.
  split; [reflexivity|]. split; [reflexivity|].
  destruct (direct_dir_requests_are_prefetchable_entries (odp := onDemand100)
              (lister := listInMapOrder) (sorter := mergeSortBySize)
              p0 cfg0 dirWithSymlink ptrA kmd0 allSend w0 eq_refl eq_refl)
    as (w' & reqs & Hrun & Hsent & _ & Hwg & _).
  exists w', reqs. split; [exact Hrun|]. split; [exact Hsent|exact Hwg].
Defined.

Lemma PrefetchBlock_sends_at_most_one_witness :
  config p0 = Some cfg0
  /\ exists err w',
       PrefetchBlock p0 (BFileBlock emptyFileBlock) ptrB kmdSynced 7 SelSend w0
       = Some (err, w')
       /\ wgs w' = [1]
       /\ sent w' = [mkPrefetchRequest 7 kmdSynced ptrB
                       (BFileBlock emptyFileBlock) 0%nat].
Proof.
  split; [reflexivity|].
  destruct (PrefetchBlock_sends_at_most_one p0 cfg0 (BFileBlock emptyFileBlock)
              ptrB kmdSynced 7 SelSend w0 eq_refl)
    as (err & w' & Hrun & Hwgs & _ & _ & Hsent & _).
  exists err, w'. split; [exact Hrun|]. split; [exact Hwgs|exact Hsent].
Defined.

Lemma PrefetchAfterBlockRetrieved_returns_new_channel_witness :
  config p0 = Some cfg0
  /\ exists w',
       PrefetchAfterBlockRetrieved (odp := onDemand100)
         (lister := listInMapOrder) (sorter := mergeSortBySize)
         p0 (BDirBlock dirThree) ptrA kmd0 allSend wOne = Some (0%nat, w')
       /\ chans w' = [false]
       /\ wgs wOne `prefix_of` wgs w'.
Proof.
  split; [reflexivity|].
  destruct (PrefetchAfterBlockRetrieved_returns_new_channel (odp := onDemand100)
              (lister := listInMapOrder) (sorter := mergeSortBySize)
              p0 cfg0 (BDirBlock dirThree) ptrA kmd0 allSend wOne eq_refl)
    as (w' & Hrun & Hch & Hwgs & _).
  exists w'. split; [exact Hrun|]. split; [exact Hch|exact Hwgs].
Defined.

(** ** The engine: progress and the end of admission *)

Lemma received_internal ls :
  Forall (fun l => internal l = true) ls -> received ls = [].
Proof.
  induction 1 as [|l ls Hl _ IH]; [done|].
  change (l :: ls) with ([l] ++ ls). rewrite received_app, IH.
  by destruct l.
Qed.

(** A step of an engine whose run loop has left its loop: the loop stays
    left, [shutdownCh] stays closed, and the step is not the receipt of a
    request. *)
Lemma step_left_loop l e e' :
  engine_inv e -> left_loop (run e) = true -> step l e = Some e' ->
  left_loop (run e') = true /\ received [l] = [].
Proof.
  intros Hinv Hleft Hstep. unfold step in Hstep.
  destruct (panicked e); [done|].
  destruct l;
    try (apply step_task_Some in Hstep as (t & t' & g & Hi & Hf & ->);
         destruct (t_pc t) eqn:Hpc; try done;
         destruct (t_errCh t) eqn:Herr; try done;
         injection Hf as <- <-; simpl;
         try (destruct (decide _)); simpl; done).
  - destruct (run e); done.
  - destruct (run e); done.
  - destruct (run e); done.
  - destruct (run e); try done. destruct (decide _); [|done].
    by injection Hstep as <-.
  - destruct (run e); try done. injection Hstep as <-.
    unfold close_doneCh. by destruct (done_closed e).
  - destruct (shutdown_closed e); [|done].
    apply step_task_Some in Hstep as (t & t' & g & Hi & Hf & ->).
    destruct (t_pc t) eqn:Hpc; try done. by injection Hf as <- <-.
  - destruct (shutdown_closed e); by injection Hstep as <-.
  - destruct (closers e); [done|]. injection Hstep as <-.
    unfold close_shutdownCh. simpl. by destruct (shutdown_closed e).
Qed.

Lemma exec_left_loop ls :
  forall e e',
    engine_inv e -> left_loop (run e) = true -> exec ls e = Some e' ->
    left_loop (run e') = true /\ received ls = [].
Proof.
  induction ls as [|l ls IH]; intros e e' Hinv Hleft Hex; simpl in Hex.
  - by injection Hex as <-.
  - destruct (step l e) as [e1|] eqn:Hstep; simpl in Hex; [|done].
    destruct (step_left_loop l e e1 Hinv Hleft Hstep) as [Hleft1 Hrecv1].
    destruct (IH e1 e' (engine_inv_step l e e1 Hinv Hstep) Hleft1 Hex)
      as [Hleft' Hrecv'].
    split; [done|]. change (l :: ls) with ([l] ++ ls).
    by rewrite received_app, Hrecv1, Hrecv'.
Qed.

(** X14. No accepted request is lost, with or without a shutdown: from
    every state the engine can reach without a panic, the run loop, the
    goroutines and the retriever can by their own steps bring every
    accepted request to its end, the one the run loop may be holding
    included. Then [Done] has been called once on the wait group of each
    of them, and the wait group of [run] is back at zero. *)
Theorem accepted_requests_can_all_complete (retriever : bool)
    (config : option prefetcherConfig) (ls : list label) (e : engine) :
  exec ls (newBlockPrefetcher retriever config).2 = Some e ->
  panicked e = false ->
  exists ls' e',
    Forall (fun l => internal l = true) ls'
    /\ exec ls' e = Some e'
    /\ dispatched e' = dispatched e ++ held e
    /\ Forall (fun t => terminated t = true) (tasks e')
    /\ released e' ≡ₚ wg <$> (dispatched e ++ held e)
    /\ pending e' = 0.
Proof.
  intros Hex Hp. destruct retriever.
  - assert (Hinv : engine_inv e)
      by (eapply engine_inv_exec; [apply engine_inv_init|exact Hex]).
    assert (Hinv2 : engine_inv2 e).
    { eapply engine_inv2_exec; [apply engine_inv_init|
                                apply engine_inv2_init|exact Hex]. }
    assert (exists ls0 e1,
      Forall (fun l => internal l = true) ls0 /\ exec ls0 e = Some e1
      /\ panicked e1 = false /\ held e1 = [])
      as (ls0 & e1 & Hint0 & Hex0 & Hp0 & Hh0).
    { destruct (run e) eqn:Hrun.
      3: { exists [LDispatch]. eexists. split; [by repeat constructor|].
           unfold exec, step. rewrite Hp, Hrun. simpl. done. }
      all: exists [], e; unfold held; rewrite Hrun; done. }
    assert (Hinv1 : engine_inv e1) by (by eapply engine_inv_exec).
    destruct (finish_all e1 (length (tasks e1)) Hinv1 Hp0 ltac:(lia))
      as (ls1 & e2 & Hint1 & Hex1 & Hp1 & Hrun1 & Hsd1 & Hlen1 & Hall1).
    assert (Hex2 : exec (ls0 ++ ls1) e = Some e2)
      by (rewrite exec_app, Hex0; done).
    assert (Hint : Forall (fun l => internal l = true) (ls0 ++ ls1))
      by (by apply Forall_app).
    assert (Hterm : Forall (fun t => terminated t = true) (tasks e2)).
    { apply Forall_lookup. intros j t Hj. apply (Hall1 j); [|done].
      rewrite <- Hlen1. by eapply lookup_lt_Some. }
    pose proof (exec_received _ _ _ Hex2) as Hrecv.
    rewrite (received_internal _ Hint), app_nil_r in Hrecv.
    assert (Hh2 : held e2 = []).
    { unfold held in *. by rewrite Hrun1. }
    rewrite Hh2, app_nil_r in Hrecv.
    exists (ls0 ++ ls1), e2. split; [done|]. split; [done|].
    split; [done|]. split; [done|].
    assert (Hinv2' : engine_inv2 e2)
      by (eapply engine_inv2_exec; [exact Hinv|exact Hinv2|exact Hex2]).
    assert (Hinv' : engine_inv e2) by (by eapply engine_inv_exec).
    split.
    + rewrite <- Hrecv. rewrite (inv_released e2 Hinv2'). unfold dispatched.
      rewrite released_of_all; [done|].
      eapply Forall_impl; [exact Hterm|]. intros t Ht.
      unfold terminated in Ht. unfold past_parent_done. by destruct (t_pc t).
    + rewrite (inv_pending e2 Hinv'). apply active_count_all_exited.
      eapply Forall_impl; [exact Hterm|]. intros t. apply terminated_active.
  - apply (idle_inv_exec _ _ _ (idle_inv_init config)) in Hex. subst e.
    exists [], (newBlockPrefetcher false config).2.
    repeat split; try done; constructor.
Qed.

Lemma accepted_requests_can_all_complete_witness :
  exists e ls' e',
    exec [LRecv req0] e0 = Some e
    /\ panicked e = false
    /\ exec ls' e = Some e'
    /\ dispatched e' = [req0]
    /\ pending e' = 0.
Proof.
  destruct (exec [LRecv req0] e0) as [e|] eqn:Hex; [|by vm_compute in Hex].
  assert (He : e = set_run (RunDispatch req0) e0).
  { vm_compute in Hex. by injection Hex as <-. }
  assert (Hp : panicked e = false) by (by rewrite He).
  destruct (accepted_requests_can_all_complete true (Some cfg0) [LRecv req0] e
              Hex Hp) as (ls' & e' & _ & Hex' & Hdisp & _ & _ & Hpend).
  exists e, ls', e'. rewrite He in *.
  split; [reflexivity|]. split; [reflexivity|]. split; [exact Hex'|].
  split; [exact Hdisp|exact Hpend].
Defined.

(** X15. Once the run loop has taken the shutdown case and left its loop,
    admission is over for good: whatever happens next, [shutdownCh] stays
    closed, the run loop receives no request and asks the retriever for
    nothing more, and the select of [request] can only take the shutdown
    case. The requests accepted before are still brought to their end. *)
Theorem no_admission_after_run_loop_returns (retriever : bool)
    (config : option prefetcherConfig) (ls ls' : list label)
    (e e' : engine) :
  exec ls (newBlockPrefetcher retriever config).2 = Some e ->
  left_loop (run e) = true ->
  exec ls' e = Some e' ->
  left_loop (run e') = true
  /\ shutdown_closed e' = true
  /\ received ls' = []
  /\ dispatched e' = dispatched e
  /\ select_ready e' SelSend = false
  /\ select_ready e' SelShutdown = true.
Proof.
  intros Hex Hleft Hex'. destruct retriever.
  - assert (Hinv : engine_inv e)
      by (eapply engine_inv_exec; [apply engine_inv_init|exact Hex]).
    assert (Hinv' : engine_inv e') by (by eapply engine_inv_exec).
    destruct (exec_left_loop ls' e e' Hinv Hleft Hex') as [Hleft' Hrecv].
    pose proof (exec_received ls' e e' Hex') as Hdisp.
    assert (Hh : forall e1, left_loop (run e1) = true -> held e1 = []).
    { intros e1. unfold held. by destruct (run e1). }
    rewrite Hrecv, (Hh e Hleft), (Hh e' Hleft'), !app_nil_r in Hdisp.
    split; [done|]. split; [by apply (inv_left e' Hinv')|].
    split; [done|]. split; [done|]. simpl.
    split; [by destruct (run e')|by apply (inv_left e' Hinv')].
  - apply (idle_inv_exec _ _ _ (idle_inv_init config)) in Hex. subst e.
    done.
Qed.

Lemma no_admission_after_run_loop_returns_witness :
  exists e e',
    exec [LShutdownSelect; LShutdownClose; LRunShutdown] e0 = Some e
    /\ left_loop (run e) = true
    /\ exec [LWaitReturns; LCloseDone] e = Some e'
    /\ select_ready e' SelSend = false
    /\ select_ready e' SelShutdown = true.
Proof.
  destruct (exec [LShutdownSelect; LShutdownClose; LRunShutdown] e0)
    as [e|] eqn:Hex; [|by vm_compute in Hex].
  destruct (exec [LWaitReturns; LCloseDone] e) as [e'|] eqn:Hex'.
  2: { vm_compute in Hex. injection Hex as <-. by vm_compute in Hex'. }
  assert (Hleft : left_loop (run e) = true).
  { vm_compute in Hex. by injection Hex as <-. }
  destruct (no_admission_after_run_loop_returns true (Some cfg0) _ _ e e'
              Hex Hleft Hex') as (_ & _ & _ & _ & Hsend & Hshut).
  exists e, e'. split; [reflexivity|]. split; [exact Hleft|].
  split; [exact Hex'|]. split; [exact Hsend|exact Hshut].
Defined.

(** ** Fan-outs: which requests are sent *)

Lemma fanout_requests_cons cfg kmd wg prio sels
    (c : BlockPointer * option Block) cs :
  fanout_requests cfg kmd wg prio sels (c :: cs)
  = from_option (fun r => [r]) [] (child_request cfg kmd wg prio sels 0 c)
    ++ fanout_requests cfg kmd wg (prio ∘ S) (sels ∘ S) cs.
Proof.
  unfold fanout_requests. rewrite imap_cons.
  by destruct (child_request cfg kmd wg prio sels 0 c).
Qed.

(** The pointers requested are pointers of the children, in the order of
    the children and each child at most once. *)
Lemma fanout_requests_sublist cfg kmd wg cs :
  forall prio sels,
    (ptr <$> fanout_requests cfg kmd wg prio sels cs)
    `sublist_of` (fst <$> cs).
Proof.
  induction cs as [|c cs IH]; intros prio sels; [constructor|].
  rewrite fanout_requests_cons, fmap_cons.
  specialize (IH (prio ∘ S) (sels ∘ S)).
  unfold child_request at 1.
  destruct (c.2) as [blk|]; simpl; [|by apply sublist_cons].
  destruct (admitted cfg c.1 (sels 0%nat)); simpl;
    [by apply sublist_skip|by apply sublist_cons].
Qed.

Section FurtherPolicy2.
Context `{odp : OnDemandPriority} `{lister : DirEntryLister}
  `{sorter : dirEntriesBySizeAsc}.

(** X16. Whatever block [PrefetchAfterBlockRetrieved] is given, the
    pointers it requests are pointers of the block's children, in the
    order the policy visits them and each child at most once. No request
    is sent for a pointer whose data version is rejected; every request
    carries the caller's key metadata and an empty file or directory block
    of its own, with an indirect file block always an empty file block;
    and when every select takes the shutdown case nothing is sent. *)
Theorem fanout_requests_follow_children (p : blockPrefetcher)
    (cfg : prefetcherConfig) (b : Block) (ptr0 : BlockPointer)
    (kmd0' : KeyMetadata) (sels : nat -> select_outcome) (w : world) :
  config p = Some cfg ->
  exists w' reqs,
    PrefetchAfterBlockRetrieved p b ptr0 kmd0' sels w
    = Some (length (chans w), w')
    /\ sent w' = sent w ++ reqs
    /\ (ptr <$> reqs) `sublist_of` (fst <$> children b)
    /\ Forall (fun r =>
                 kmd r = kmd0'
                 /\ checkDataVersion cfg (ptr r) = None
                 /\ (block r = BFileBlock emptyFileBlock
                     \/ block r = BDirBlock emptyDirBlock)) reqs
    /\ (forall fb, b = BFileBlock fb ->
          Forall (fun r => block r = BFileBlock emptyFileBlock) reqs)
    /\ ((forall i, sels i = SelShutdown) -> reqs = []).
Proof.
  intros Hcfg. destruct (fans_out b) eqn:Hfan.
  - destruct (PrefetchAfterBlockRetrieved_fanout p cfg Hcfg kmd0' sels b ptr0 w
                Hfan) as (w' & Hrun & _ & _ & _ & Hsent).
    exists w'. eexists. split; [exact Hrun|]. split; [exact Hsent|].
    split; [apply fanout_requests_sublist|].
    split; [|split].
    + apply Forall_forall. intros r Hr.
      apply elem_of_fanout_requests in Hr
        as (i & c & blk & Hi & Hblk & Hadm & ->).
      apply admitted_true in Hadm as (_ & Hver & _). simpl.
      split; [done|]. split; [done|].
      destruct b as [fb|db|]; simpl in Hi, Hfan; [| |done].
      * rewrite Hfan, list_lookup_fmap in Hi.
        destruct (fIPtrs fb !! i); [|done]. simpl in Hi.
        injection Hi as <-. simpl in Hblk. injection Hblk as <-. by left.
      * destruct (dIsInd db); rewrite list_lookup_fmap in Hi.
        -- destruct (dIPtrs db !! i); [|done]. simpl in Hi.
           injection Hi as <-. simpl in Hblk. injection Hblk as <-. by right.
        -- destruct (sortedEntries db !! i) as [en|]; [|done]. simpl in Hi.
           injection Hi as <-. simpl in Hblk.
           destruct (Type_ en); simpl in Hblk; try done;
             injection Hblk as <-; auto.
    + intros fb ->. apply Forall_forall. intros r Hr.
      apply elem_of_fanout_requests in Hr
        as (i & c & blk & Hi & Hblk & _ & ->).
      simpl in Hi, Hfan. rewrite Hfan, list_lookup_fmap in Hi.
      destruct (fIPtrs fb !! i); [|done]. simpl in Hi.
      injection Hi as <-. simpl in Hblk. by injection Hblk as <-.
    + intros Hall.
      destruct (fanout_requests cfg kmd0' (length (wgs w))
                  (go_prio (startingPriority cfg b kmd0')) sels (children b))
        as [|r rs] eqn:Hreqs; [done|].
      assert (Hr : r ∈ fanout_requests cfg kmd0' (length (wgs w))
                         (go_prio (startingPriority cfg b kmd0')) sels
                         (children b)) by (rewrite Hreqs; by left).
      apply elem_of_fanout_requests in Hr as (i & c & blk & _ & _ & Hadm & _).
      apply admitted_true in Hadm as (_ & _ & Hsel).
      by rewrite Hall in Hsel.
  - rewrite (PrefetchAfterBlockRetrieved_leaf p kmd0' sels b ptr0 w Hfan).
    eexists _, []. split; [reflexivity|]. simpl. rewrite app_nil_r.
    split; [done|]. split; [apply sublist_nil_l|].
    split; [constructor|]. split; [constructor|done].
Qed.

End FurtherPolicy2.

Lemma fanout_requests_follow_children_witness :
  config p0 = Some cfg0
  /\ exists w' reqs,
       PrefetchAfterBlockRetrieved (odp := onDemand100)
         (lister := listInMapOrder) (sorter := mergeSortBySize)
         p0 (BFileBlock fileTwo) ptrA kmd0 allSend w0 = Some (0%nat, w')
       /\ sent w' = sent w0 ++ reqs
       /\ (ptr <$> reqs) `sublist_of` [ptrB; ptrD].
Proof.
  split; [reflexivity|].
  destruct (fanout_requests_follow_children (odp := onDemand100)
              (lister := listInMapOrder) (sorter := mergeSortBySize)
              p0 cfg0 (BFileBlock fileTwo) ptrA kmd0 allSend w0 eq_refl)
    as (w' & reqs & Hrun & Hsent & Hsub & _).
  exists w', reqs. split; [exact Hrun|]. split; [exact Hsent|exact Hsub].
Defined.
